(** * QuickJS wire-format (de)serializer: shallow embedding and properties

    The development embeds the Go package [serde] (the reader and writer of
    the QuickJS [JS_WriteObject] byte format, version 12) and proves
    properties of [ReadValue], [ReadObject] and [WriteValue].

    The embedded revision is the most recent one of the package: the one
    that has [ReadValue], [ReadObject(r, v)] with [setField], and
    [WriteValue] with [writeTypedArray], and that the tests in
    [serde_test.go] exercise.  The two older revisions in the repository
    (the oldest reads through a [bufio.Reader]) are not embedded.

    Conventions of the model:
    - a byte is a [Byte.byte]; Go integers are [Z], with the range checks
      and the wrap-around of the source written out;
    - a [float64] or [float32] is its IEEE-754 bit pattern, a [Z]; the one
      float operation the code reaches, the conversion of a [float32] to
      [float64] and back inside [binary.Read], is written out on the bits;
    - a Go [string] is a [string] (a sequence of 8-bit characters);
    - [io.Reader] is instantiated with [bytes.Reader], the reader the
      package's tests use, and [io.Writer] with [bytes.Buffer];
    - [panic]/[recover] is an outcome threaded through a state monad;
    - the goroutine stack is taken to hold the recursion of [readValue],
      which is at most as deep as the input is long.  A run that outgrows
      the stack limit of the runtime is aborted, not recovered; such runs
      are outside the model. *)

From Stdlib Require Import ZArith List Lia Bool.
From Stdlib Require Import Strings.Byte Strings.String Strings.Ascii.
From Stdlib Require Import DecimalString.
From stdpp Require Import gmap strings.
Import ListNotations.
Open Scope Z_scope.

Set Warnings "-register-all".

(** ** Bytes *)

Definition byteVal (b : byte) : Z := Z.of_N (Byte.to_N b).

(** Go's conversion [byte(x)]: the low eight bits. *)
Definition byteOf (z : Z) : byte :=
  match Byte.of_N (Z.to_N (z mod 256)) with
  | Some b => b
  | None => x00
  end.

Definition bytesOf (l : list Z) : list byte := map byteOf l.

(** [make([]byte, n)]: [n] zero bytes. *)
Definition make (n : nat) : list byte := replicate n x00.

(** ** Go types and values *)

(** Element types of the numeric slices the codec produces and accepts. *)
Inductive elemType :=
| Uint8 | Int8 | Int16 | Uint16 | Int32 | Uint32
| Int64 | Uint64 | Float32 | Float64.

(** The Go types that occur in the package or in a host record. *)
Inductive goType :=
| TBool
| TInt
| TInt32
| TFloat64
| TString
| TUndefinedValue            (* serde.UndefinedValue *)
| TAny                       (* interface{} *)
| TMap                       (* map[string]any *)
| TArray                     (* []any *)
| TSlice (t : elemType)      (* []byte, []int8, ..., []float64 *)
| TArrayBuffer               (* serde.ArrayBuffer *)
| TUint8ClampedArray         (* serde.Uint8ClampedArray *)
| TPtr (t : goType).

(** A Go value held in an [any], or in a field of a host record.
    [VNil] is the nil interface.  [VZero t] is the zero value of a type
    whose zero value is a nil slice, map or pointer, or a struct with nil
    slices: [reflect.DeepEqual] tells these apart from their empty
    counterparts, so the model does too. *)
Inductive value :=
| VNil
| VUndefined
| VBool (b : bool)
| VInt (z : Z)
| VInt32 (z : Z)
| VFloat64 (bits : Z)
| VString (s : string)
| VMap (m : gmap string value)
| VArray (l : list value)
| VSlice (t : elemType) (l : list Z)
| VArrayBuffer (Bytes : list Z)
| VUint8ClampedArray (Bytes : list Z)
| VPtr (t : goType) (target : value)
| VZero (t : goType).

(** ** Errors and panics *)

(** What the package passes to [panic] as a formatted string.  Each
    constructor is one [panic] site; the comment gives its format. *)
Inductive panicMsg :=
| VersionMismatch (have : byte)     (* "version mismatch (have %d, want %d)" *)
| ObjectExpected (name : string)    (* "object expected, have %s" *)
| AtomOutOfRange                    (* "atom out of range" *)
| Int32OutOfRange (v : Z)           (* "int32 out of range: %d" *)
| Uint32OutOfRange (v : Z)          (* "uint32 out of range: %d" *)
| StructuralError                   (* "typed array not followed by arraybuffer" *)
| SizeMismatch                      (* "typed array not followed by arraybuffer of right size" *)
| BadTypedArrayTag (tag : byte)     (* "bad typed array tag: %d" *)
| UnsupportedTag (name : string)    (* "unsupported %s" *)
| UnsupportedValue (v : value)      (* "unsupported type %t" *)
| TypeMismatch (src dst : goType).  (* reflect.Set: value of type src is not
                                       assignable to type dst *)

(** Go [error] values that reach the caller. *)
Inductive error :=
| EOF                                (* io.EOF *)
| ErrUnexpectedEOF                   (* io.ErrUnexpectedEOF *)
| errOverflow                        (* binary: varint overflows a 64-bit integer *)
| IndexOutOfRange                    (* runtime error: index out of range *)
| Errorf (fn : string) (m : panicMsg). (* fmt.Errorf("serde.<fn>: %v", m) *)

Inductive panicVal :=
| PErr (e : error)
| PMsg (m : panicMsg).

(** The spec's [StreamTruncated]: the stream ended before a read was
    satisfied. *)
Definition StreamTruncated (e : error) : Prop :=
  e = EOF \/ e = ErrUnexpectedEOF.

(** ** The monad of the decoder and the encoder *)

Inductive outcome (A : Type) :=
| Ret (a : A)
| Panic (p : panicVal)
| OutOfFuel.
Arguments Ret {A} a.
Arguments Panic {A} p.
Arguments OutOfFuel {A}.

Definition Run (St A : Type) : Type := St -> outcome A * St.

Definition ret {St A} (a : A) : Run St A := fun s => (Ret a, s).

Definition bind {St A B} (m : Run St A) (k : A -> Run St B) : Run St B :=
  fun s =>
    match m s with
    | (Ret a, s') => k a s'
    | (Panic p, s') => (Panic p, s')
    | (OutOfFuel, s') => (OutOfFuel, s')
    end.

Definition panic {St A} (p : panicVal) : Run St A := fun s => (Panic p, s).

Definition outOfFuel {St A} : Run St A := fun s => (OutOfFuel, s).

Notation "'let*' p ':=' m 'in' k" := (bind m (fun p => k))
  (at level 10, p pattern, m at level 100, k at level 200).

(** [panicIf(err)]. *)
Definition panicIf {St} (err : option error) : Run St unit :=
  match err with
  | Some e => panic (PErr e)
  | None => ret tt
  end.

(** A counted [for] loop that updates a local accumulator. *)
Fixpoint forM {St A} (n : nat) (body : A -> Run St A) (acc : A) : Run St A :=
  match n with
  | O => ret acc
  | S n' => bind (body acc) (forM n' body)
  end.

(** ** [bytes.Reader] *)

(** The state of a [bytes.Reader]: the bytes not yet read.  [short] is a
    history variable, not a field of the Go struct: it records whether some
    [Read] so far delivered fewer bytes than the length of the buffer it
    was given.  No result depends on it. *)
Record Reader := mkReader { unread : list byte; short : bool }.

Definition NewReader (b : list byte) : Reader :=
  {| unread := b; short := false |}.

(** [r.Read(b)]: at the end of the data it returns [0, io.EOF], also for an
    empty [b]; otherwise it copies [min(len(b), available)] bytes into the
    front of [b] and returns their number and a nil error. *)
Definition Read (b : list byte) : Run Reader (list byte * nat * option error) :=
  fun r =>
    match unread r with
    | [] =>
        (Ret (b, O, Some EOF),
         {| unread := []; short := short r || negb (Nat.eqb (length b) 0) |})
    | _ =>
        let n := Nat.min (length b) (length (unread r)) in
        (Ret (firstn n (unread r) ++ skipn n b, n, None),
         {| unread := skipn n (unread r);
            short := short r || Nat.ltb n (length b) |})
    end.

(** [io.ReadFull(r, buf)], that is [io.ReadAtLeast(r, buf, len(buf))]:
    [for n < min && err == nil { nn, err = r.Read(buf[n:]); n += nn }]. *)
Fixpoint readAtLeast (fuel : nat) (buf : list byte) (n min : nat)
    (err : option error) : Run Reader (list byte * nat * option error) :=
  if Nat.ltb n min && match err with None => true | Some _ => false end then
    match fuel with
    | O => outOfFuel
    | S fuel' =>
        let* (b', nn, err') := Read (skipn n buf) in
        readAtLeast fuel' (firstn n buf ++ b') (n + nn) min err'
    end
  else ret (buf, n, err).

Definition ReadFull (buf : list byte) : Run Reader (list byte * option error) :=
  let* (buf', n, err) := readAtLeast 2 buf 0 (length buf) None in
  if Nat.leb (length buf) n then ret (buf', None)
  else match err with
       | Some EOF => if Nat.ltb 0 n then ret (buf', Some ErrUnexpectedEOF)
                     else ret (buf', Some EOF)
       | _ => ret (buf', err)
       end.

(** ** Constants of the wire format *)

Definition bcVersion : byte := x0c.

(** [BCTagEnum]: [tagNull = 1 + iota] and so on. *)
Definition tagNull : byte := x01.
Definition tagUndefined : byte := x02.
Definition tagFalse : byte := x03.
Definition tagTrue : byte := x04.
Definition tagInt32 : byte := x05.
Definition tagFloat64 : byte := x06.
Definition tagString : byte := x07.
Definition tagObject : byte := x08.
Definition tagArray : byte := x09.
Definition tagBigInt : byte := x0a.
Definition tagTemplateObject : byte := x0b.
Definition tagFunctionBytecode : byte := x0c.
Definition tagModule : byte := x0d.
Definition tagTypedArray : byte := x0e.
Definition tagArrayBuffer : byte := x0f.
Definition tagSharedArrayBuffer : byte := x10.
Definition tagRegExp : byte := x11.
Definition tagDate : byte := x12.
Definition tagObjectValue : byte := x13.
Definition tagObjectReference : byte := x14.

(** The typed-array element kinds, [uint8ClampedArray = iota] and so on. *)
Definition uint8ClampedArray : byte := x00.
Definition int8Array : byte := x01.
Definition uint8Array : byte := x02.
Definition int16Array : byte := x03.
Definition uint16Array : byte := x04.
Definition int32Array : byte := x05.
Definition uint32Array : byte := x06.
Definition bigInt64Array : byte := x07.
Definition bigUint64Array : byte := x08.
Definition float32Array : byte := x09.
Definition float64Array : byte := x0a.

Definition MaxUint32 : Z := 4294967295.
Definition MinInt32 : Z := -2147483648.
Definition MaxInt32 : Z := 2147483647.
(** [math.MaxInt] of a 64-bit platform. *)
Definition MaxInt : Z := 9223372036854775807.

(** [fmt.Sprintf("%d", n)]. *)
Definition Sprintf_d (n : Z) : string :=
  NilZero.string_of_int (Z.to_int n).

Definition tagName (tag : byte) : string :=
  if Byte.eqb tag tagNull then "null"
  else if Byte.eqb tag tagUndefined then "undefined"
  else if Byte.eqb tag tagFalse then "false"
  else if Byte.eqb tag tagTrue then "true"
  else if Byte.eqb tag tagInt32 then "int32"
  else if Byte.eqb tag tagFloat64 then "float64"
  else if Byte.eqb tag tagString then "string"
  else if Byte.eqb tag tagObject then "object"
  else if Byte.eqb tag tagArray then "array"
  else if Byte.eqb tag tagBigInt then "bigint"
  else if Byte.eqb tag tagTemplateObject then "template object"
  else if Byte.eqb tag tagFunctionBytecode then "function bytecode"
  else if Byte.eqb tag tagModule then "module"
  else if Byte.eqb tag tagTypedArray then "typed array"
  else if Byte.eqb tag tagArrayBuffer then "arraybuffer"
  else if Byte.eqb tag tagSharedArrayBuffer then "sharedarraybuffer"
  else if Byte.eqb tag tagRegExp then "regexp"
  else if Byte.eqb tag tagDate then "date"
  else if Byte.eqb tag tagObjectValue then "object value"
  else if Byte.eqb tag tagObjectReference then "object reference"
  else ("unknown tag " ++ Sprintf_d (byteVal tag))%string.

(** ** Reading bytes *)

(** [byteReader.ReadByte]: [var b [1]byte; _, err = br.r.Read(b[:]);
    res = b[0]]. *)
Definition ReadByte : Run Reader (byte * option error) :=
  let* (b, _, err) := Read (make 1) in
  ret (hd x00 b, err).

Definition readByte : Run Reader byte :=
  let* (b, err) := ReadByte in
  match err with
  | None => ret b
  | Some e => panic (PErr e)
  end.

(** [readBytes]: the count that [Read] returns is dropped, and the error
    is ignored when [n] is zero. *)
Definition readBytes (n : Z) : Run Reader (list byte) :=
  let b := make (Z.to_nat n) in
  let* (b', _, err) := Read b in
  match err with
  | Some e => if 0 <? n then panic (PErr e) else ret b'
  | None => ret b'
  end.

(** ** Variable-length integers *)

Definition uint64 (z : Z) : Z := z mod 2 ^ 64.

(** The loop of [binary.ReadUvarint]; [todo] is [MaxVarintLen64 - i]. *)
Fixpoint readUvarintLoop (todo : nat) (i x s : Z) : Run Reader (Z * option error) :=
  match todo with
  | O => ret (x, Some errOverflow)
  | S todo' =>
      let* (b, err) := ReadByte in
      match err with
      | Some e =>
          if (0 <? i) && match e with EOF => true | _ => false end
          then ret (x, Some ErrUnexpectedEOF)
          else ret (x, Some e)
      | None =>
          if byteVal b <? 128 then
            if (i =? 9) && (1 <? byteVal b) then ret (x, Some errOverflow)
            else ret (Z.lor x (uint64 (Z.shiftl (byteVal b) s)), None)
          else
            readUvarintLoop todo' (i + 1)
              (Z.lor x (uint64 (Z.shiftl (Z.land (byteVal b) 127) s))) (s + 7)
      end
  end.

Definition ReadUvarint : Run Reader (Z * option error) :=
  readUvarintLoop 10 0 0 0.

(** [int64(ux)] for [ux] a [uint64]. *)
Definition int64 (z : Z) : Z :=
  let u := z mod 2 ^ 64 in
  if u <? 2 ^ 63 then u else u - 2 ^ 64.

(** [binary.ReadVarint]: zig-zag decoding, [x = ^x] when the low bit is set. *)
Definition ReadVarint : Run Reader (Z * option error) :=
  let* (ux, err) := ReadUvarint in
  let x := int64 (Z.shiftr ux 1) in
  let x := if negb (Z.land ux 1 =? 0) then Z.lnot x else x in
  ret (x, err).

Definition readUint32 : Run Reader Z :=
  let* (v, err) := ReadUvarint in
  match err with
  | Some e => panic (PErr e)
  | None =>
      if (MaxUint32 <? v) || (MaxInt <? v)
      then panic (PMsg (Uint32OutOfRange v))
      else ret v
  end.

(** ** [encoding/binary]: fixed-size little-endian data *)

Definition elemSize (t : elemType) : nat :=
  match t with
  | Uint8 | Int8 => 1
  | Int16 | Uint16 => 2
  | Int32 | Uint32 | Float32 => 4
  | Int64 | Uint64 | Float64 => 8
  end%nat.

Definition signed (t : elemType) : bool :=
  match t with
  | Int8 | Int16 | Int32 | Int64 => true
  | _ => false
  end.

(** The unsigned value of a little-endian byte sequence. *)
Fixpoint leUint (bs : list byte) : Z :=
  match bs with
  | [] => 0
  | b :: bs' => byteVal b + 256 * leUint bs'
  end.

(** A [float32] bit pattern that is a NaN: exponent bits all set, mantissa
    not zero. *)
Definition isNaN32 (bits : Z) : bool :=
  (Z.land (Z.shiftr bits 23) 255 =? 255) && negb (Z.land bits 8388607 =? 0).

(** [float32(float64(x))] on the bits of the [float32] [x].  Widening and
    narrowing are exact on numbers and infinities; a NaN comes back quiet:
    the conversion sets the top bit of the mantissa (bit 22) and keeps the
    others, as the conversion instructions of amd64 and arm64 do. *)
Definition viaFloat64 (bits : Z) : Z :=
  if isNaN32 bits then Z.lor bits 4194304 else bits.

(** One element, as the decoder of [binary.Read] stores it.  The code
    passes [&v], a pointer to a slice, which [binary.Read] decodes by
    reflection: integers by [SetInt]/[SetUint] of the little-endian value,
    a [float64] by [SetFloat(math.Float64frombits(u))], and a [float32] by
    [SetFloat(float64(math.Float32frombits(u)))], which stores
    [float32(float64(x))]. *)
Definition decodeElem (t : elemType) (bs : list byte) : Z :=
  let u := leUint bs in
  let w := 8 * Z.of_nat (elemSize t) in
  match t with
  | Float32 => viaFloat64 u
  | _ => if signed t && (2 ^ (w - 1) <=? u) then u - 2 ^ w else u
  end.

Fixpoint chunks (k count : nat) (l : list byte) : list (list byte) :=
  match count with
  | O => []
  | S count' => firstn k l :: chunks k count' (skipn k l)
  end.

(** [binary.Read(r, binary.LittleEndian, &v)] for [v] a slice of [n]
    elements of type [t] (or, with [n = 1], a single number): it fills a
    buffer of [n * size] bytes with [io.ReadFull] and decodes it; on an
    error [v] keeps its zeroes.  The single [float64] of a Float64
    record is decoded by [math.Float64frombits], which is what
    [decodeElem Float64] gives. *)
Definition binaryRead (t : elemType) (n : nat) : Run Reader (list Z * option error) :=
  let* (buf, err) := ReadFull (make (n * elemSize t)) in
  match err with
  | Some e => ret (replicate n 0, Some e)
  | None => ret (map (decodeElem t) (chunks (elemSize t) n buf), None)
  end.

(** ** Strings *)

Definition surr1 : Z := 55296.   (* 0xd800 *)
Definition surr2 : Z := 56320.   (* 0xdc00 *)
Definition surr3 : Z := 57344.   (* 0xe000 *)
Definition surrSelf : Z := 65536.
Definition replacementChar : Z := 65533.  (* U+FFFD *)
Definition MaxRune : Z := 1114111.        (* U+10FFFF *)

(** [utf16.Decode]. *)
Fixpoint utf16Decode (s : list Z) : list Z :=
  match s with
  | [] => []
  | r :: tl =>
      if (r <? surr1) || (surr3 <=? r) then r :: utf16Decode tl
      else
        match tl with
        | r2 :: tl' =>
            if (surr1 <=? r) && (r <? surr2) && (surr2 <=? r2) && (r2 <? surr3)
            then (Z.lor (Z.shiftl (r - surr1) 10) (r2 - surr2) + surrSelf)
                   :: utf16Decode tl'
            else replacementChar :: utf16Decode tl
        | [] => [replacementChar]
        end
  end.

(** The UTF-8 encoding of one rune, as the conversion [string(runes)]
    produces it. *)
Definition encodeRune (r : Z) : list byte :=
  if (0 <=? r) && (r <=? 127) then [byteOf r]
  else if (0 <=? r) && (r <=? 2047) then
    [byteOf (Z.lor 192 (Z.shiftr r 6)); byteOf (Z.lor 128 (Z.land r 63))]
  else if (r <? 0) || (MaxRune <? r) || ((surr1 <=? r) && (r <? surr3)) then
    [xef; xbf; xbd]
  else if r <=? 65535 then
    [byteOf (Z.lor 224 (Z.shiftr r 12));
     byteOf (Z.lor 128 (Z.land (Z.shiftr r 6) 63));
     byteOf (Z.lor 128 (Z.land r 63))]
  else
    [byteOf (Z.lor 240 (Z.shiftr r 18));
     byteOf (Z.lor 128 (Z.land (Z.shiftr r 12) 63));
     byteOf (Z.lor 128 (Z.land (Z.shiftr r 6) 63));
     byteOf (Z.lor 128 (Z.land r 63))].

Definition stringOfRunes (rs : list Z) : string :=
  string_of_list_byte (concat (map encodeRune rs)).

Definition readString : Run Reader string :=
  let* n := readUint32 in
  let isWide := Z.land n 1 =? 1 in
  let n := Z.shiftr n 1 in
  if isWide then
    let* (h, err) := binaryRead Uint16 (Z.to_nat n) in
    let* _ := panicIf err in
    ret (stringOfRunes (utf16Decode h))
  else
    let* b := readBytes n in
    ret (string_of_list_byte b).

(** ** Header and atoms *)

Definition readHeader : Run Reader (list string) :=
  let* version := readByte in
  if negb (Byte.eqb version bcVersion) then
    panic (PMsg (VersionMismatch version))
  else
    let* count := readUint32 in
    forM (Z.to_nat count)
         (fun atoms => let* s := readString in ret (atoms ++ [s])) [].

Definition readAtom (atoms : list string) : Run Reader string :=
  let* idx := readUint32 in
  let isTaggedInt := Z.land idx 1 =? 1 in
  let idx := Z.shiftr idx 1 in
  if isTaggedInt then ret (Sprintf_d idx)
  else if (0 <? idx) && (idx <=? Z.of_nat (length atoms)) then
    ret (nth (Z.to_nat (idx - 1)) atoms EmptyString)
  else panic (PMsg AtomOutOfRange).

(** ** The tag dispatcher *)

(** The element type selected by the [switch tag] of a typed array. *)
Definition typedArrayElem (tag : byte) : option elemType :=
  if Byte.eqb tag uint8ClampedArray then Some Uint8
  else if Byte.eqb tag uint8Array then Some Uint8
  else if Byte.eqb tag int8Array then Some Int8
  else if Byte.eqb tag int16Array then Some Int16
  else if Byte.eqb tag uint16Array then Some Uint16
  else if Byte.eqb tag int32Array then Some Int32
  else if Byte.eqb tag uint32Array then Some Uint32
  else if Byte.eqb tag bigInt64Array then Some Int64
  else if Byte.eqb tag bigUint64Array then Some Uint64
  else if Byte.eqb tag float32Array then Some Float32
  else if Byte.eqb tag float64Array then Some Float64
  else None.

(** [readValue].  The recursion of the source is on the input; [fuel]
    bounds its depth, and [readValue_fuel_enough] shows that anything above
    the number of unread bytes is enough. *)
Fixpoint readValue (fuel : nat) (atoms : list string) : Run Reader value :=
  match fuel with
  | O => outOfFuel
  | S fuel' =>
      let* tag := readByte in
      if Byte.eqb tag tagNull then ret VNil
      else if Byte.eqb tag tagUndefined then ret VUndefined
      else if Byte.eqb tag tagFalse then ret (VBool false)
      else if Byte.eqb tag tagTrue then ret (VBool true)
      else if Byte.eqb tag tagInt32 then
        let* (v, err) := ReadVarint in
        match err with
        | Some e => panic (PErr e)
        | None =>
            if (v <? MinInt32) || (MaxInt32 <? v)
            then panic (PMsg (Int32OutOfRange v))
            else ret (VInt32 v)
        end
      else if Byte.eqb tag tagFloat64 then
        let* (v, err) := binaryRead Float64 1 in
        let* _ := panicIf err in
        ret (VFloat64 (hd 0 v))
      else if Byte.eqb tag tagString then
        let* s := readString in
        ret (VString s)
      else if Byte.eqb tag tagObject then
        let* n := readUint32 in
        let* m := forM (Z.to_nat n)
                    (fun m : gmap string value =>
                       let* atom := readAtom atoms in
                       let* v := readValue fuel' atoms in
                       ret (<[atom := v]> m)) ∅ in
        ret (VMap m)
      else if Byte.eqb tag tagArray then
        let* n := readUint32 in
        let* v := forM (Z.to_nat n)
                    (fun v : list value =>
                       let* x := readValue fuel' atoms in
                       ret (v ++ [x])) [] in
        ret (VArray v)
      else if Byte.eqb tag tagArrayBuffer then
        let* n := readUint32 in
        let* b := readBytes n in
        ret (VSlice Uint8 (map byteVal b))
      else if Byte.eqb tag tagTypedArray then
        let* tag := readByte in
        let* n := readUint32 in
        let* _ := readUint32 in
        let* tag' := readByte in
        if negb (Byte.eqb tagArrayBuffer tag') then
          panic (PMsg StructuralError)
        else
          let* n' := readUint32 in
          if negb (n =? n') then panic (PMsg SizeMismatch)
          else
            match typedArrayElem tag with
            | Some t =>
                let* (v, err) := binaryRead t (Z.to_nat n) in
                let* _ := panicIf err in
                ret (VSlice t v)
            | None => panic (PMsg (BadTypedArrayTag tag))
            end
      else panic (PMsg (UnsupportedTag (tagName tag)))
  end.

(** What an exported function hands back to its caller: its results, the
    last of them the [error].  [FuelExhausted] belongs to the model only;
    [ReadValue_returns] and [ReadObject_returns] show that it never
    occurs. *)
Inductive returned (A : Type) :=
| Returns (a : A) (err : option error)
| FuelExhausted.
Arguments Returns {A} a err.
Arguments FuelExhausted {A}.

(** The deferred [recover] of the exported functions: a panic with an
    [error] is returned as it is, any other panic value is wrapped by
    [fmt.Errorf("serde.<fn>: %v", x)].  After a panic the other named
    result still has its zero value. *)
Definition recover {A} (fn : string) (zero : A) (o : outcome A) : returned A :=
  match o with
  | Ret a => Returns a None
  | Panic (PErr e) => Returns zero (Some e)
  | Panic (PMsg m) => Returns zero (Some (Errorf fn m))
  | OutOfFuel => FuelExhausted
  end.

(** [ReadValue]: the value and the error it returns, and the reader as it
    leaves it. *)
Definition ReadValue (r : Reader) : returned value * Reader :=
  let fuel := S (length (unread r)) in
  let '(o, r') := (let* atoms := readHeader in readValue fuel atoms) r in
  (recover "ReadValue" VNil o, r').

Definition tryReadValue (b : list Z) : returned value :=
  fst (ReadValue (NewReader (bytesOf b))).

(** ** The object field binder *)

(** A host record: the struct behind the pointer given to [ReadObject],
    as [reflect] sees it.  The model covers structs without embedded
    fields. *)
Record field := mkField {
  fieldName : string;
  fieldType : goType;
  fieldValue : value
}.

Definition record := list field.

#[global] Instance elemType_eq_dec : EqDecision elemType.
Proof. solve_decision. Defined.

#[global] Instance goType_eq_dec : EqDecision goType.
Proof. solve_decision. Defined.

(** The dynamic type of a value: [reflect.ValueOf(value)], which is
    invalid (here [None]) for the nil interface only. *)
Definition typeOf (v : value) : option goType :=
  match v with
  | VNil => None
  | VUndefined => Some TUndefinedValue
  | VBool _ => Some TBool
  | VInt _ => Some TInt
  | VInt32 _ => Some TInt32
  | VFloat64 _ => Some TFloat64
  | VString _ => Some TString
  | VMap _ => Some TMap
  | VArray _ => Some TArray
  | VSlice t _ => Some (TSlice t)
  | VArrayBuffer _ => Some TArrayBuffer
  | VUint8ClampedArray _ => Some TUint8ClampedArray
  | VPtr t _ => Some (TPtr t)
  | VZero t => Some t
  end.

(** What [fv.SetZero()] stores. *)
Definition zeroValue (t : goType) : value :=
  match t with
  | TBool => VBool false
  | TInt => VInt 0
  | TInt32 => VInt32 0
  | TFloat64 => VFloat64 0
  | TString => VString EmptyString
  | TUndefinedValue => VUndefined
  | TAny => VNil
  | _ => VZero t
  end.

(** [reflect]'s assignability, on the types of the model: identical
    types, or an interface that the source implements. *)
Definition assignable (src dst : goType) : bool :=
  bool_decide (src = dst) || bool_decide (dst = TAny).

(** [Type.FieldByName] on a struct without embedded fields: the first
    field of that name; the empty name matches nothing. *)
Fixpoint fieldIndex (name : string) (fs : list field) (i : nat) : option nat :=
  match fs with
  | [] => None
  | f :: fs' =>
      if String.eqb (fieldName f) name then Some i
      else fieldIndex name fs' (S i)
  end.

Definition FieldByName (rec : record) (name : string) : option nat :=
  if String.eqb name EmptyString then None else fieldIndex name rec O.

Definition setFieldValue (x : value) (f : field) : field :=
  {| fieldName := fieldName f; fieldType := fieldType f; fieldValue := x |}.

(** [setField(ptr, name, value)], on the record [ptr] points to. *)
Definition setField (name : string) (value : value) : Run record bool :=
  fun rec =>
    match FieldByName rec name with
    | Some i =>
        match rec !! i with
        | Some f =>
            match typeOf value with
            | Some t =>
                if assignable t (fieldType f)
                then (Ret true, <[i := setFieldValue value f]> rec)
                else (Panic (PMsg (TypeMismatch t (fieldType f))), rec)
            | None =>
                (Ret true, <[i := setFieldValue (zeroValue (fieldType f)) f]> rec)
            end
        | None => (Ret false, rec)
        end
    | None => (Ret false, rec)
    end.

Definition onReader {A} (m : Run Reader A) : Run (Reader * record) A :=
  fun '(r, rec) => let '(o, r') := m r in (o, (r', rec)).

Definition onRecord {A} (m : Run record A) : Run (Reader * record) A :=
  fun '(r, rec) => let '(o, rec') := m rec in (o, (r, rec')).

(** The body of the loop of [ReadObject]: one property. *)
Definition bindProperty (fuel : nat) (atoms : list string) (_ : unit)
  : Run (Reader * record) unit :=
  let* name := onReader (readAtom atoms) in
  let* value := onReader (readValue fuel atoms) in
  let* _ := onRecord (setField name value) in
  ret tt.

(** [ReadObject(r, v)]: the error it returns, and the reader and the
    record behind [v] as it leaves them. *)
Definition ReadObject (r : Reader) (v : record) : returned unit * Reader * record :=
  let fuel := S (length (unread r)) in
  let '(o, (r', v')) :=
    (let* atoms := onReader readHeader in
     let* tag := onReader readByte in
     if negb (Byte.eqb tag tagObject) then
       panic (PMsg (ObjectExpected (tagName tag)))
     else
       let* count := onReader readUint32 in
       forM (Z.to_nat count) (bindProperty fuel atoms) tt) (r, v) in
  (recover "ReadObject" tt o, r', v').

Definition tryReadObject (v : record) (b : list Z) : returned unit * record :=
  let '(err, _, v') := ReadObject (NewReader (bytesOf b)) v in (err, v').

(** ** The encoder *)

(** [w.Write(b)] on a [bytes.Buffer]: appends, never fails. *)
Definition write (b : list byte) : Run (list byte) unit :=
  fun w => (Ret tt, w ++ b).

(** [binary.PutUvarint(buf, x)] with [cap] bytes of [buf] left: the bytes
    it stores, or [None] where [buf[i]] is out of range. *)
Fixpoint PutUvarint (cap : nat) (x : Z) : option (list byte) :=
  match cap with
  | O => None
  | S cap' =>
      if 128 <=? x then
        match PutUvarint cap' (Z.shiftr x 7) with
        | Some bs => Some (byteOf (Z.lor (byteVal (byteOf x)) 128) :: bs)
        | None => None
        end
      else Some [byteOf x]
  end.

(** [writeUvarint]: [var b [8]byte; n := binary.PutUvarint(b[:], uint64(v))]. *)
Definition writeUvarint (v : Z) : Run (list byte) unit :=
  match PutUvarint 8 (uint64 v) with
  | Some bs => write bs
  | None => panic (PErr IndexOutOfRange)
  end.

Fixpoint leBytes (k : nat) (z : Z) : list byte :=
  match k with
  | O => []
  | S k' => byteOf z :: leBytes k' (Z.shiftr z 8)
  end.

Definition encodeElem (t : elemType) (z : Z) : list byte :=
  leBytes (elemSize t) z.

(** [binary.Write(w, binary.LittleEndian, v)] for a numeric slice. *)
Definition binaryWrite (t : elemType) (v : list Z) : Run (list byte) (option error) :=
  let* _ := write (concat (map (encodeElem t) v)) in
  ret None.

Definition writeTypedArray (n : Z) (t : elemType) (v : list Z) (tag : byte)
  : Run (list byte) unit :=
  let* _ := write [tagTypedArray; tag] in
  let* _ := writeUvarint n in
  let* _ := writeUvarint 0 in
  let* _ := write [tagArrayBuffer] in
  let* _ := writeUvarint n in
  let* err := binaryWrite t v in
  panicIf err.

Definition len {A} (l : list A) : Z := Z.of_nat (length l).

(** The typed-array tag that the type switch of [WriteValue] selects for
    a slice type. *)
Definition sliceTag (t : elemType) : byte :=
  match t with
  | Uint8 => uint8Array
  | Int8 => int8Array
  | Int16 => int16Array
  | Uint16 => uint16Array
  | Int32 => int32Array
  | Uint32 => uint32Array
  | Int64 => bigInt64Array
  | Uint64 => bigUint64Array
  | Float32 => float32Array
  | Float64 => float64Array
  end.

Definition writeValue (v : value) : Run (list byte) unit :=
  let atoms : list string := [] in
  let* _ := write [bcVersion] in
  let* _ := writeUvarint (len atoms) in
  match v with
  | VNil => write [tagNull]
  | VUndefined => write [tagUndefined]
  | VBool t =>
      let b := tagFalse in
      let b := if t then tagTrue else b in
      write [b]
  | VArrayBuffer Bytes =>
      let* _ := write [tagArrayBuffer] in
      let* _ := writeUvarint (len Bytes) in
      write (map byteOf Bytes)
  | VZero TArrayBuffer =>
      let* _ := write [tagArrayBuffer] in
      let* _ := writeUvarint 0 in
      write []
  | VUint8ClampedArray Bytes =>
      writeTypedArray (len Bytes) Uint8 Bytes uint8ClampedArray
  | VZero TUint8ClampedArray =>
      writeTypedArray 0 Uint8 [] uint8ClampedArray
  | VSlice t l => writeTypedArray (len l) t l (sliceTag t)
  | VZero (TSlice t) => writeTypedArray 0 t [] (sliceTag t)
  | _ => panic (PMsg (UnsupportedValue v))
  end.

(** [WriteValue(w, v)]: the error it returns and the buffer as it leaves
    it.  Its [recover] wraps under the name of [ReadObject]. *)
Definition WriteValue (w : list byte) (v : value) : returned unit * list byte :=
  let '(o, w') := writeValue v w in
  (recover "ReadObject" tt o, w').

Definition tryWriteValue (v : value) : returned unit * list byte :=
  WriteValue [] v.

(** * Vocabulary of the properties *)

(** The number of bytes a state still has to offer. *)
Class Avail (St : Type) := avail : St -> nat.

#[global] Instance avail_reader : Avail Reader :=
  fun r => length (unread r).

#[global] Instance avail_binder : Avail (Reader * record) :=
  fun s => length (unread (fst s)).

(** On states holding at most [L] bytes, [m] does not run out of fuel,
    and it leaves no more bytes than it found. *)
Definition okUpTo {St} {AvSt : Avail St} {A} (L : nat) (m : Run St A) : Prop :=
  forall r o r', m r = (o, r') -> (avail r <= L)%nat ->
    o <> OutOfFuel /\ (avail r' <= avail r)%nat.

Definition ok {St} {AvSt : Avail St} {A} (m : Run St A) : Prop :=
  forall L, okUpTo L m.

(** A writer computation that does not run out of fuel. *)
Definition fueled {A} (m : Run (list byte) A) : Prop :=
  forall w, fst (m w) <> OutOfFuel.

(** A writer computation only appends to the buffer. *)
Definition appends {A} (m : Run (list byte) A) : Prop :=
  forall w, exists out, snd (m w) = w ++ out.

(** [f], at index [i], is the first field of [rec] whose name is [name]. *)
Definition firstNamed (rec : record) (name : string) (i : nat) (f : field) : Prop :=
  name <> EmptyString
  /\ rec !! i = Some f
  /\ fieldName f = name
  /\ forall j g, (j < i)%nat -> rec !! j = Some g -> fieldName g <> name.

(** The bytes of [d] arrays of one element nested in each other, around a
    null, and the value they encode. *)
Fixpoint nestedArrayBytes (d : nat) : list byte :=
  match d with
  | O => [tagNull]
  | S d' => tagArray :: x01 :: nestedArrayBytes d'
  end.

Fixpoint nestedArray (d : nat) : value :=
  match d with
  | O => VNil
  | S d' => VArray [nestedArray d']
  end.

(** The reader [r] with [t] appended to its data. *)
Definition extend (r : Reader) (t : list byte) : Reader :=
  {| unread := unread r ++ t; short := short r |}.

(** A run of [m] in which no read came up short is unaffected by bytes
    appended to the data: it gives the same outcome and leaves them
    unread. *)
Definition framed {A} (m : Run Reader A) : Prop :=
  forall r o r', m r = (o, r') -> short r' = false ->
    short r = false /\ forall t, m (extend r t) = (o, extend r' t).

(** [m'] does what [m] does whenever [m] does not run out of fuel. *)
Definition refines {A} (m m' : Run Reader A) : Prop :=
  forall r o r', m r = (o, r') -> o <> OutOfFuel -> m' r = (o, r').

(** The values an element of type [t] can have: the integers of its
    width and sign; for the float types, the bit patterns of its width. *)
Definition inRange (t : elemType) (z : Z) : Prop :=
  let w := 8 * Z.of_nat (elemSize t) in
  if signed t then - 2 ^ (w - 1) <= z < 2 ^ (w - 1) else 0 <= z < 2 ^ w.

(** A [float32] bit pattern that is a signalling NaN: a NaN whose top
    mantissa bit is clear. *)
Definition signalling32 (bits : Z) : bool :=
  isNaN32 bits && negb (Z.testbit bits 22).

(** What a decoded slice of type [t] holds for an element written as
    [z]. *)
Definition stored (t : elemType) (z : Z) : Z :=
  match t with
  | Float32 => viaFloat64 z
  | _ => z
  end.

(** The values that survive a round trip: nil, [Undefined], the
    booleans, and the (non-nil) numeric slices of at most [MaxUint32]
    elements, a [[]float32] among them when it holds no signalling NaN. *)
Definition roundTrips (v : value) : Prop :=
  match v with
  | VNil | VUndefined | VBool _ => True
  | VSlice t l =>
      len l <= MaxUint32 /\ Forall (inRange t) l
      /\ (t = Float32 -> Forall (fun z => signalling32 z = false) l)
  | _ => False
  end.

(** [m] takes every state to one that [R] relates to it. *)
Definition steps {St A} (R : St -> St -> Prop) (m : Run St A) : Prop :=
  forall s o s', m s = (o, s') -> R s s'.

(** What [m] returns, when it returns, satisfies [P]. *)
Definition post {St A} (P : A -> Prop) (m : Run St A) : Prop :=
  forall s a s', m s = (Ret a, s') -> P a.

(** The values [readValue] can return: the variants of the decoder, an
    [int32] within its range, a [float64] that is a 64-bit pattern, and
    slices whose elements are within the range of their type. *)
Inductive decodable : value -> Prop :=
| decodable_nil : decodable VNil
| decodable_undefined : decodable VUndefined
| decodable_bool b : decodable (VBool b)
| decodable_int32 z : MinInt32 <= z <= MaxInt32 -> decodable (VInt32 z)
| decodable_float64 bits : 0 <= bits < 2 ^ 64 -> decodable (VFloat64 bits)
| decodable_string s : decodable (VString s)
| decodable_map m :
    (forall k v, m !! k = Some v -> decodable v) -> decodable (VMap m)
| decodable_array l : Forall decodable l -> decodable (VArray l)
| decodable_slice t l : Forall (inRange t) l -> decodable (VSlice t l).

(** Two records with the same fields, by name and type, in the same
    order. *)
Definition sameShape (v v' : record) : Prop :=
  Forall2 (fun f f' => fieldName f' = fieldName f
                       /\ fieldType f' = fieldType f) v v'.

(** The zig-zag code of a signed integer, which [binary.ReadVarint]
    undoes. *)
Definition zigzag (z : Z) : Z := if z <? 0 then - 2 * z - 1 else 2 * z.

(** What [setField] stores for a decoded value [x] in a field of type
    [t], when it stores something. *)
Definition bound (t : goType) (x : value) : value :=
  match typeOf x with
  | None => zeroValue t
  | Some _ => x
  end.

(** [v] is the record [v0] with the properties of the object [m] bound
    to the fields they name: it has the shape of [v0]; a field named by a
    key of [m] holds what [setField] stores for the value under that key,
    and a field that no key names holds what it held in [v0]. *)
Definition bindsTo (v0 : record) (m : gmap string value) (v : record) : Prop :=
  sameShape v0 v
  /\ forall i f, firstNamed v0 (fieldName f) i f ->
       exists f', v !! i = Some f'
                  /\ fieldValue f'
                     = match m !! fieldName f with
                       | Some x => bound (fieldType f) x
                       | None => fieldValue f
                       end.

(** The tags [readValue] decodes; every other byte is refused. *)
Definition supportedTag (tag : byte) : bool :=
  Byte.eqb tag tagNull || Byte.eqb tag tagUndefined || Byte.eqb tag tagFalse
  || Byte.eqb tag tagTrue || Byte.eqb tag tagInt32 || Byte.eqb tag tagFloat64
  || Byte.eqb tag tagString || Byte.eqb tag tagObject || Byte.eqb tag tagArray
  || Byte.eqb tag tagArrayBuffer || Byte.eqb tag tagTypedArray.

(** The values the type switch of [WriteValue] has a case for. *)
Definition encodable (v : value) : bool :=
  match v with
  | VNil | VUndefined | VBool _ | VArrayBuffer _ | VUint8ClampedArray _
  | VSlice _ _ => true
  | VZero (TSlice _) | VZero TArrayBuffer | VZero TUint8ClampedArray => true
  | _ => false
  end.

(** [r'] holds an end piece of the data of [r]. *)
Definition reads (r r' : Reader) : Prop :=
  exists consumed, unread r = consumed ++ unread r'.

(** * Properties *)

(** ** The primitives on a given stream *)

Lemma Read_nil b sh :
  Read b (mkReader [] sh)
  = (Ret (b, O, Some EOF), mkReader [] (sh || negb (Nat.eqb (length b) 0))).
Proof. reflexivity. Qed.

Lemma ReadByte_nil sh :
  ReadByte (mkReader [] sh) = (Ret (x00, Some EOF), mkReader [] true).
Proof.
  unfold ReadByte, bind. rewrite Read_nil. simpl.
  now rewrite orb_true_r.
Qed.

Lemma ReadByte_cons b l sh :
  ReadByte (mkReader (b :: l) sh) = (Ret (b, None), mkReader l sh).
Proof.
  unfold ReadByte, bind, Read. simpl.
  now rewrite orb_false_r.
Qed.

Lemma readByte_nil sh :
  readByte (mkReader [] sh) = (Panic (PErr EOF), mkReader [] true).
Proof. unfold readByte, bind. now rewrite ReadByte_nil. Qed.

Lemma readByte_cons b l sh :
  readByte (mkReader (b :: l) sh) = (Ret b, mkReader l sh).
Proof. unfold readByte, bind. now rewrite ReadByte_cons. Qed.

Lemma length_make n : length (make n) = n.
Proof. apply length_replicate. Qed.

(** [io.ReadFull] on a [bytes.Reader], by cases on what is available. *)
Lemma ReadFull_enough buf l sh :
  (length buf <= length l)%nat ->
  ReadFull buf (mkReader l sh)
  = (Ret (firstn (length buf) l, None), mkReader (skipn (length buf) l) sh).
Proof.
  intros Hle. unfold ReadFull, bind.
  destruct buf as [|b0 buf].
  - simpl. reflexivity.
  - destruct l as [|a l]; [simpl in Hle; lia|].
    cbn [readAtLeast]. replace (Nat.ltb 0 (length (b0 :: buf))) with true
      by (symmetry; apply Nat.ltb_lt; simpl; lia).
    cbn [andb]. unfold bind at 1. unfold Read. cbn [unread short skipn].
    rewrite Nat.min_l by exact Hle.
    rewrite skipn_all, app_nil_r. cbn [firstn app Nat.add].
    rewrite Nat.ltb_irrefl. cbn [andb]. rewrite orb_false_r.
    unfold ret. rewrite Nat.leb_refl. reflexivity.
Qed.

Lemma ReadFull_eof buf sh :
  buf <> [] ->
  ReadFull buf (mkReader [] sh) = (Ret (buf, Some EOF), mkReader [] true).
Proof.
  intros Hne. unfold ReadFull, bind.
  destruct buf as [|b0 buf]; [congruence|].
  cbn [readAtLeast]. replace (Nat.ltb 0 (length (b0 :: buf))) with true
    by (symmetry; apply Nat.ltb_lt; simpl; lia).
  cbn [andb]. unfold bind at 1. rewrite Read_nil.
  cbn [skipn firstn app Nat.add readAtLeast].
  rewrite andb_false_r. unfold ret. cbn [length Nat.leb Nat.ltb Nat.eqb negb].
  now rewrite orb_true_r.
Qed.

Lemma ReadFull_short buf a l sh :
  (length (a :: l) < length buf)%nat ->
  ReadFull buf (mkReader (a :: l) sh)
  = (Ret ((a :: l) ++ skipn (length (a :: l)) buf, Some ErrUnexpectedEOF),
     mkReader [] true).
Proof.
  intros Hlt. unfold ReadFull, bind.
  destruct buf as [|b0 buf]; [simpl in Hlt; lia|].
  cbn [readAtLeast]. replace (Nat.ltb 0 (length (b0 :: buf))) with true
    by (symmetry; apply Nat.ltb_lt; simpl; lia).
  cbn [andb]. unfold bind at 1. unfold Read at 1. cbn [unread short skipn].
  rewrite Nat.min_r by lia.
  rewrite firstn_all, skipn_all. cbn [firstn app Nat.add].
  replace (Nat.ltb (length (a :: l)) (length (b0 :: buf))) with true
    by (symmetry; apply Nat.ltb_lt; lia).
  cbn [andb]. unfold bind at 1. rewrite Read_nil.
  cbn [readAtLeast]. rewrite andb_false_r. unfold ret.
  rewrite Nat.add_0_r.
  replace (Nat.leb (length (b0 :: buf)) (length (a :: l))) with false
    by (symmetry; apply Nat.leb_gt; lia).
  cbn [length Nat.ltb Nat.leb].
  rewrite orb_true_r.
  rewrite firstn_skipn. reflexivity.
Qed.

(** ** Fuel: the decoder consumes its input and never runs out *)

Lemma ok_ret {St} {AvSt : Avail St} {A} (a : A) : ok (St := St) (ret a).
Proof. intros L r o r' E _. inversion E; subst. split; [discriminate | lia]. Qed.

Lemma ok_panic {St} {AvSt : Avail St} {A} p : ok (@panic St A p).
Proof. intros L r o r' E _. inversion E; subst. split; [discriminate | lia]. Qed.

Lemma okUpTo_bind {St} {AvSt : Avail St} {A B} L (m : Run St A) (k : A -> Run St B) :
  okUpTo L m -> (forall a, okUpTo L (k a)) -> okUpTo L (bind m k).
Proof.
  intros Hm Hk r o r' E0 HL. unfold bind in E0.
  destruct (m r) as [[a|p|] r1] eqn:E.
  - destruct (Hm _ _ _ E HL) as [_ H1].
    destruct (Hk a _ _ _ E0) as [H2 H3]; [lia|]. split; [exact H2 | lia].
  - inversion E0; subst. destruct (Hm _ _ _ E HL). split; [discriminate | tauto].
  - destruct (Hm _ _ _ E HL) as [Hc _]. congruence.
Qed.

Lemma okUpTo_forM {St} {AvSt : Avail St} {A} L n (body : A -> Run St A) acc :
  (forall a, okUpTo L (body a)) -> okUpTo L (forM n body acc).
Proof.
  intros Hb. revert acc. induction n as [|n IH]; intros acc; simpl.
  - apply ok_ret.
  - apply okUpTo_bind; [apply Hb | exact IH].
Qed.

Lemma ok_Read b : ok (Read b).
Proof.
  intros L [l sh] o r' H _. unfold Read in H. cbn [unread short] in H.
  destruct l as [|a l]; inversion H; subst; unfold avail, avail_reader; cbn [unread].
  - split; [discriminate | lia].
  - split; [discriminate|]. rewrite length_skipn. lia.
Qed.

Lemma ok_ReadByte : ok ReadByte.
Proof.
  intros L [[|b l] sh] o r' H _.
  - rewrite ReadByte_nil in H. inversion H; subst. unfold avail, avail_reader; simpl.
    split; [discriminate | lia].
  - rewrite ReadByte_cons in H. inversion H; subst. unfold avail, avail_reader; simpl.
    split; [discriminate | lia].
Qed.

Lemma ok_readByte : ok readByte.
Proof.
  intros L [[|b l] sh] o r' H _.
  - rewrite readByte_nil in H. inversion H; subst. unfold avail, avail_reader; simpl.
    split; [discriminate | lia].
  - rewrite readByte_cons in H. inversion H; subst. unfold avail, avail_reader; simpl.
    split; [discriminate | lia].
Qed.

(** After [readByte] the continuation runs on a strictly shorter input. *)
Lemma okUpTo_bind_readByte {B} L (k : byte -> Run Reader B) :
  (forall b L', L = S L' -> okUpTo L' (k b)) -> okUpTo L (bind readByte k).
Proof.
  intros Hk [[|b l] sh] o r' H HL; unfold bind in H.
  - rewrite readByte_nil in H. inversion H; subst. unfold avail, avail_reader; simpl.
    split; [discriminate | lia].
  - rewrite readByte_cons in H. unfold avail, avail_reader in HL; simpl in HL.
    destruct L as [|L']; [lia|].
    destruct (Hk b L' eq_refl _ _ _ H) as [H1 H2]; [unfold avail, avail_reader; simpl; lia|].
    split; [exact H1|]. unfold avail, avail_reader in *; simpl in *. lia.
Qed.

Lemma okUpTo_mono {St} {AvSt : Avail St} {A} L L' (m : Run St A) :
  (L' <= L)%nat -> okUpTo L m -> okUpTo L' m.
Proof. intros HLL Hm r o r' H HL. apply (Hm r o r' H). lia. Qed.

Lemma ok_ReadFull buf : ok (ReadFull buf).
Proof.
  intros L [l sh] o r' H _.
  destruct (le_lt_dec (length buf) (length l)) as [Hle|Hlt].
  - rewrite ReadFull_enough in H by exact Hle. inversion H; subst.
    unfold avail, avail_reader; cbn [unread]. rewrite length_skipn.
    split; [discriminate | lia].
  - destruct l as [|a l].
    + rewrite ReadFull_eof in H by (intros ->; simpl in Hlt; lia).
      inversion H; subst. split; [discriminate | unfold avail, avail_reader; simpl; lia].
    + rewrite ReadFull_short in H by exact Hlt.
      inversion H; subst. split; [discriminate | unfold avail, avail_reader; simpl; lia].
Qed.

(** One syntax-directed step of an [okUpTo]/[ok] proof. *)
Ltac ok_step :=
  lazymatch goal with
  | |- ok _ => intros ?
  | |- okUpTo _ (bind _ _) => apply okUpTo_bind; [|intros ?]
  | |- okUpTo _ (ret _) => apply ok_ret
  | |- okUpTo _ (panic _) => apply ok_panic
  | |- okUpTo _ (panicIf ?e) => destruct e; [apply ok_panic | apply ok_ret]
  | |- okUpTo _ (forM _ _ _) => apply okUpTo_forM; intros ?
  | |- okUpTo _ (if ?c then _ else _) => destruct c
  | |- okUpTo _ (match ?x with (_, _) => _ end) => destruct x
  | |- okUpTo _ (match ?x with Some _ => _ | None => _ end) => destruct x
  | |- okUpTo _ (match ?x with EOF => _ | _ => _ end) => destruct x
  end.

Lemma ok_readBytes n : ok (readBytes n).
Proof. unfold readBytes. repeat ok_step; apply ok_Read. Qed.

Lemma ok_readUvarintLoop todo i x s : ok (readUvarintLoop todo i x s).
Proof.
  revert i x s. induction todo as [|todo IH]; intros i x s; simpl.
  - apply ok_ret.
  - repeat ok_step; try apply ok_ReadByte. apply IH.
Qed.

Lemma ok_ReadUvarint : ok ReadUvarint.
Proof. apply ok_readUvarintLoop. Qed.

Lemma ok_ReadVarint : ok ReadVarint.
Proof. unfold ReadVarint. repeat ok_step. apply ok_ReadUvarint. Qed.

Lemma ok_readUint32 : ok readUint32.
Proof. unfold readUint32. repeat ok_step. apply ok_ReadUvarint. Qed.

Lemma ok_binaryRead t n : ok (binaryRead t n).
Proof. unfold binaryRead. repeat ok_step. apply ok_ReadFull. Qed.

Lemma ok_readString : ok readString.
Proof.
  unfold readString. repeat ok_step;
    first [apply ok_readUint32 | apply ok_binaryRead | apply ok_readBytes].
Qed.

Lemma ok_readHeader : ok readHeader.
Proof.
  unfold readHeader. repeat ok_step;
    first [apply ok_readByte | apply ok_readUint32 | apply ok_readString].
Qed.

Lemma ok_readAtom atoms : ok (readAtom atoms).
Proof. unfold readAtom. repeat ok_step. apply ok_readUint32. Qed.

(** Fuel above the number of unread bytes is enough for [readValue]. *)
Lemma readValue_fuel_enough fuel atoms L :
  (L < fuel)%nat -> okUpTo L (readValue fuel atoms).
Proof.
  revert L. induction fuel as [|fuel IH]; intros L HL; [lia|].
  cbn [readValue]. apply okUpTo_bind_readByte. intros tag L' ->.
  assert (IH' : okUpTo L' (readValue fuel atoms)) by (apply IH; lia).
  repeat ok_step;
    first [ exact IH' | apply ok_ReadVarint | apply ok_binaryRead
          | apply ok_readString | apply ok_readUint32 | apply ok_readAtom
          | apply ok_readBytes | apply ok_readByte ].
Qed.

(** [ReadValue] always returns: the fuel it starts with is enough. *)
Lemma ReadValue_returns r : fst (ReadValue r) <> FuelExhausted.
Proof.
  unfold ReadValue.
  destruct ((let* atoms := readHeader in
             readValue (S (length (unread r))) atoms) r) as [o r'] eqn:E.
  assert (Hok : okUpTo (avail r)
                  (let* atoms := readHeader in
                   readValue (S (length (unread r))) atoms)).
  { apply okUpTo_bind; [apply ok_readHeader|].
    intros atoms. apply readValue_fuel_enough. unfold avail, avail_reader. lia. }
  destruct (Hok r o r' E) as [Ho _]; [lia|].
  destruct o as [v|[e|m]|]; simpl; congruence.
Qed.

Lemma ok_onReader {A} L (m : Run Reader A) :
  okUpTo L m -> okUpTo L (onReader m).
Proof.
  intros Hm [r v] o [r' v'] E HL. unfold onReader in E.
  destruct (m r) as [o1 r1] eqn:E1. inversion E; subst.
  exact (Hm _ _ _ E1 HL).
Qed.

Lemma ok_setField name x : ok (onRecord (setField name x)).
Proof.
  intros L [r v] o [r' v'] E _. unfold onRecord in E.
  destruct (setField name x v) as [o1 v1] eqn:E1. inversion E; subst.
  split; [|unfold avail, avail_binder; simpl; lia].
  unfold setField in E1.
  repeat match type of E1 with
         | context [match ?x with _ => _ end] => destruct x
         end; inversion E1; discriminate.
Qed.

(** [ReadObject] always returns. *)
Lemma ReadObject_returns r v : fst (fst (ReadObject r v)) <> FuelExhausted.
Proof.
  unfold ReadObject.
  match goal with
  | |- context [let '(_, _) := ?m (r, v) in _] =>
      assert (Hok : okUpTo (avail (r, v)) m);
      [|destruct (m (r, v)) as [o [r' v']] eqn:E]
  end.
  { apply okUpTo_bind; [apply ok_onReader, ok_readHeader|]. intros atoms.
    apply okUpTo_bind; [apply ok_onReader, ok_readByte|]. intros tag.
    destruct (negb (Byte.eqb tag tagObject)); [apply ok_panic|].
    apply okUpTo_bind; [apply ok_onReader, ok_readUint32|]. intros count.
    apply okUpTo_forM. intros []. unfold bindProperty.
    apply okUpTo_bind; [apply ok_onReader, ok_readAtom|]. intros name.
    apply okUpTo_bind;
      [apply ok_onReader, readValue_fuel_enough;
       unfold avail, avail_binder; simpl; lia|].
    intros x. apply okUpTo_bind; [apply ok_setField|]. intros _. apply ok_ret. }
  destruct (Hok _ _ _ E) as [Ho _]; [lia|].
  destruct o as [a|[e|m]|]; simpl; congruence.
Qed.

(** ** The version byte *)

Lemma Byte_eqb_neq (a b : byte) : a <> b -> Byte.eqb a b = false.
Proof.
  intros Hne. destruct (Byte.eqb a b) eqn:E; [|reflexivity].
  apply Byte.byte_dec_bl in E. contradiction.
Qed.

Lemma readHeader_version_mismatch b rest sh :
  b <> bcVersion ->
  readHeader (mkReader (b :: rest) sh)
  = (Panic (PMsg (VersionMismatch b)), mkReader rest sh).
Proof.
  intros Hne. unfold readHeader, bind. rewrite readByte_cons.
  rewrite (Byte_eqb_neq _ _ Hne). reflexivity.
Qed.

(** C6.  A stream whose first byte is not the supported version makes
    every decode operation fail with the version-mismatch error, whatever
    bytes follow; [ReadObject] leaves the record as it was. *)
Theorem version_mismatch (b : byte) (rest : list byte) (v : record) :
  b <> bcVersion ->
  ReadValue (NewReader (b :: rest))
  = (Returns VNil (Some (Errorf "ReadValue" (VersionMismatch b))),
     NewReader rest)
  /\ ReadObject (NewReader (b :: rest)) v
     = (Returns tt (Some (Errorf "ReadObject" (VersionMismatch b))),
        NewReader rest, v).
Proof.
  intros Hne. split.
  - unfold ReadValue, NewReader, bind.
    rewrite (readHeader_version_mismatch _ _ _ Hne). reflexivity.
  - unfold ReadObject, NewReader, bind, onReader.
    rewrite (readHeader_version_mismatch _ _ _ Hne). reflexivity.
Qed.

Lemma version_mismatch_witness :
  x0d <> bcVersion
  /\ ReadValue (NewReader (bytesOf [13; 0; 1]))
     = (Returns VNil (Some (Errorf "ReadValue" (VersionMismatch x0d))),
        NewReader (bytesOf [0; 1]))
  /\ ReadObject (NewReader (bytesOf [13; 0; 1])) []
     = (Returns tt (Some (Errorf "ReadObject" (VersionMismatch x0d))),
        NewReader (bytesOf [0; 1]), []).
Proof.
  split; [discriminate|].
  apply (version_mismatch x0d (bytesOf [0; 1]) []). discriminate.
Defined.

(** ** The header that [WriteValue] emits *)

Lemma fueled_ret {A} (a : A) : fueled (ret a).
Proof. intros w. discriminate. Qed.

Lemma fueled_panic {A} p : fueled (@panic (list byte) A p).
Proof. intros w. discriminate. Qed.

Lemma fueled_write b : fueled (write b).
Proof. intros w. discriminate. Qed.

Lemma fueled_bind {A B} (m : Run (list byte) A) (k : A -> Run (list byte) B) :
  fueled m -> (forall a, fueled (k a)) -> fueled (bind m k).
Proof.
  intros Hm Hk w. unfold bind. specialize (Hm w).
  destruct (m w) as [[a|p|] w1]; simpl in *;
    [apply Hk | discriminate | congruence].
Qed.

Lemma fueled_writeUvarint v : fueled (writeUvarint v).
Proof.
  unfold writeUvarint. destruct (PutUvarint 8 (uint64 v));
    [apply fueled_write | apply fueled_panic].
Qed.

Lemma fueled_writeTypedArray n t v tag : fueled (writeTypedArray n t v tag).
Proof.
  unfold writeTypedArray, binaryWrite.
  repeat (apply fueled_bind; [|intros ?]);
    try apply fueled_write; try apply fueled_writeUvarint;
    try apply fueled_ret.
  unfold panicIf.
  match goal with
  | |- fueled (match ?e with _ => _ end) =>
      destruct e; [apply fueled_panic | apply fueled_ret]
  end.
Qed.

(** The encoder has no recursion: [WriteValue] always returns. *)
Lemma WriteValue_returns w v : fst (WriteValue w v) <> FuelExhausted.
Proof.
  assert (Hv : fueled (writeValue v)).
  { unfold writeValue.
    apply fueled_bind; [apply fueled_write|]. intros _.
    apply fueled_bind; [apply fueled_writeUvarint|]. intros _.
    destruct v as [| |b|z|z|z|s|m|l|t l|bs|bs|t x|t];
      try apply fueled_write; try apply fueled_panic;
      try apply fueled_writeTypedArray.
    - repeat (apply fueled_bind; [|intros ?]);
        try apply fueled_write; apply fueled_writeUvarint.
    - destruct t; try apply fueled_panic;
        try apply fueled_writeTypedArray.
      repeat (apply fueled_bind; [|intros ?]);
        try apply fueled_write; apply fueled_writeUvarint. }
  unfold WriteValue. specialize (Hv w).
  destruct (writeValue v w) as [[[]|[e|m]|] w'];
    simpl in *; congruence.
Qed.

Lemma appends_ret {A} (a : A) : appends (ret a).
Proof. intros w. exists []. simpl. now rewrite app_nil_r. Qed.

Lemma appends_panic {A} p : appends (@panic (list byte) A p).
Proof. intros w. exists []. simpl. now rewrite app_nil_r. Qed.

Lemma appends_write b : appends (write b).
Proof. intros w. now exists b. Qed.

Lemma appends_bind {A B} (m : Run (list byte) A) (k : A -> Run (list byte) B) :
  appends m -> (forall a, appends (k a)) -> appends (bind m k).
Proof.
  intros Hm Hk w. unfold bind. destruct (Hm w) as [o1 H1].
  destruct (m w) as [[a|p|] w1]; simpl in *; subst.
  - destruct (Hk a (w ++ o1)) as [o2 H2]. exists (o1 ++ o2).
    now rewrite H2, app_assoc.
  - now exists o1.
  - now exists o1.
Qed.

Lemma appends_writeUvarint v : appends (writeUvarint v).
Proof.
  unfold writeUvarint. destruct (PutUvarint 8 (uint64 v));
    [apply appends_write | apply appends_panic].
Qed.

Lemma appends_writeTypedArray n t v tag : appends (writeTypedArray n t v tag).
Proof.
  unfold writeTypedArray, binaryWrite.
  repeat (apply appends_bind; [|intros ?]);
    try apply appends_write; try apply appends_writeUvarint;
    try apply appends_ret.
  destruct a4; [apply appends_panic | apply appends_ret].
Qed.

Lemma readHeader_empty rest sh :
  readHeader (mkReader (bcVersion :: x00 :: rest) sh)
  = (Ret [], mkReader rest sh).
Proof.
  unfold readHeader, bind at 1. rewrite readByte_cons.
  change (negb (Byte.eqb bcVersion bcVersion)) with false. cbv iota.
  unfold bind at 1, readUint32, bind at 1, ReadUvarint.
  cbn [readUvarintLoop]. unfold bind at 1. rewrite ReadByte_cons.
  reflexivity.
Qed.

(** C10.  Whatever the value, what [WriteValue] appends to the buffer
    starts with the version byte 12 and the atom count 0, which
    [readHeader] reads back as the empty atom table. *)
Theorem WriteValue_header (w : list byte) (v : value) :
  exists rest,
    snd (WriteValue w v) = w ++ bcVersion :: x00 :: rest
    /\ readHeader (NewReader (bcVersion :: x00 :: rest))
       = (Ret [], NewReader rest).
Proof.
  cut (exists rest, snd (WriteValue w v) = w ++ bcVersion :: x00 :: rest).
  { intros [rest Hr]. exists rest. split; [exact Hr | apply readHeader_empty]. }
  unfold WriteValue.
  assert (Hk : exists k : Run (list byte) unit,
             appends k /\ writeValue v w = k (w ++ [bcVersion; x00])).
  { unfold writeValue.
    match goal with
    | |- context [let* _ := writeUvarint _ in ?body] => exists body
    end.
    split.
    - destruct v as [| |b|z|z|z|s|m|l|t l|bs|bs|t x|t];
        try apply appends_write; try apply appends_panic;
        try apply appends_writeTypedArray.
      + repeat (apply appends_bind; [|intros ?]);
          try apply appends_write; apply appends_writeUvarint.
      + destruct t; try apply appends_panic;
          try apply appends_writeTypedArray.
        repeat (apply appends_bind; [|intros ?]);
          try apply appends_write; apply appends_writeUvarint.
    - unfold bind at 1. unfold write at 1. unfold bind at 1.
      change (writeUvarint (len [])) with (write [x00]).
      unfold write at 1. now rewrite <- app_assoc. }
  destruct Hk as (k & Hk & ->). destruct (Hk (w ++ [bcVersion; x00])) as [out Ho].
  destruct (k (w ++ [bcVersion; x00])) as [o w']. simpl in *. subst.
  exists out. now rewrite <- app_assoc.
Qed.

(** ** Object keys *)

Lemma land_1_odd k : (Z.land k 1 =? 1) = Z.odd k.
Proof.
  change 1 with (Z.ones 1) at 1. rewrite Z.land_ones by lia.
  change (2 ^ 1) with 2. rewrite Zmod_odd. now destruct (Z.odd k).
Qed.

Lemma shiftr_1_half k : Z.shiftr k 1 = k / 2.
Proof. now rewrite Z.shiftr_div_pow2 by lia. Qed.

(** C7.  [readAtom] reads one varint [k].  When its low bit is set, the
    key is the decimal text of the remaining bits [k / 2].  When it is
    clear, [k / 2] is a 1-based index into the atom table: the key is the
    entry at that index, and an index of 0 or one beyond the table fails
    with the atom-out-of-range panic. *)
Theorem readAtom_spec (atoms : list string) (r r' : Reader) (k : Z) :
  readUint32 r = (Ret k, r') ->
  (Z.odd k = true ->
     readAtom atoms r = (Ret (Sprintf_d (k / 2)), r'))
  /\ (Z.odd k = false -> 1 <= k / 2 <= len atoms ->
        exists a, atoms !! Z.to_nat (k / 2 - 1) = Some a
                  /\ readAtom atoms r = (Ret a, r'))
  /\ (Z.odd k = false -> k / 2 = 0 \/ len atoms < k / 2 ->
        readAtom atoms r = (Panic (PMsg AtomOutOfRange), r')).
Proof.
  intros Hk. unfold readAtom, bind. rewrite Hk.
  rewrite land_1_odd, shiftr_1_half. unfold len.
  split; [|split].
  - intros ->. reflexivity.
  - intros -> [H1 H2].
    assert (Hlt : (Z.to_nat (k / 2 - 1) < length atoms)%nat) by lia.
    destruct (lookup_lt_is_Some_2 atoms _ Hlt) as [a Ha].
    exists a. split; [exact Ha|].
    replace (0 <? k / 2) with true by (symmetry; apply Z.ltb_lt; lia).
    replace (k / 2 <=? Z.of_nat (length atoms)) with true
      by (symmetry; apply Z.leb_le; lia).
    cbn [andb]. unfold ret. rewrite nth_lookup, Ha. reflexivity.
  - intros -> [H0|Hgt].
    + rewrite H0. reflexivity.
    + replace (k / 2 <=? Z.of_nat (length atoms)) with false
        by (symmetry; apply Z.leb_gt; lia).
      now rewrite andb_false_r.
Qed.

(** The keys of the package's tests: the tagged integer 42, written as
    the varint 85, is the key "42"; the atom "-42", referenced by the
    varint 2, is the key "-42". *)
Lemma readAtom_spec_witness :
  readAtom [] (NewReader [x55]) = (Ret "42"%string, NewReader [])
  /\ readAtom ["-42"%string] (NewReader [x02]) = (Ret "-42"%string, NewReader [])
  /\ readAtom ["-42"%string] (NewReader [x04])
     = (Panic (PMsg AtomOutOfRange), NewReader []).
Proof.
  split; [|split].
  - exact (proj1 (readAtom_spec [] (NewReader [x55]) (NewReader []) 85
                    eq_refl) eq_refl).
  - destruct (proj1 (proj2 (readAtom_spec ["-42"%string] (NewReader [x02])
                              (NewReader []) 2 eq_refl)) eq_refl)
      as [a [Ha Hr]]; [vm_compute; split; discriminate|].
    cbv in Ha. injection Ha as <-. exact Hr.
  - apply (proj2 (proj2 (readAtom_spec ["-42"%string] (NewReader [x04])
                           (NewReader []) 4 eq_refl)) eq_refl).
    right. reflexivity.
Defined.

(** ** Typed arrays *)



(** ** Short reads *)

(** What [readBytes] does when some, but fewer than [n], bytes are left:
    it returns them followed by zeroes, with no error. *)
Lemma readBytes_short (n : Z) (a : byte) (l : list byte) (sh : bool) :
  len (a :: l) < n ->
  readBytes n (mkReader (a :: l) sh)
  = (Ret ((a :: l) ++ make (Z.to_nat n - length (a :: l))), mkReader [] true).
Proof.
  intros Hlt. unfold len in Hlt. unfold readBytes, bind, Read.
  cbn [unread short]. rewrite length_make.
  rewrite Nat.min_r by lia. rewrite firstn_all, skipn_all.
  replace (Nat.ltb (length (a :: l)) (Z.to_nat n)) with true
    by (symmetry; apply Nat.ltb_lt; lia).
  rewrite orb_true_r. unfold ret, make. rewrite drop_replicate. reflexivity.
Qed.

(** The sibling path: [binary.Read] reports a stream that ends early. *)
Lemma binaryRead_truncated (t : elemType) (n : nat) (r : Reader) :
  (avail r < n * elemSize t)%nat ->
  exists e r', binaryRead t n r = (Ret (replicate n 0, Some e), r')
               /\ StreamTruncated e.
Proof.
  intros Hlt. destruct r as [l sh]. unfold avail, avail_reader in Hlt.
  cbn [unread] in Hlt. unfold binaryRead, bind.
  destruct l as [|a l].
  - rewrite ReadFull_eof by (intros E; apply (f_equal (@length byte)) in E;
                             rewrite length_make in E; simpl in *; lia).
    exists EOF, (mkReader [] true). split; [reflexivity | now left].
  - rewrite ReadFull_short by (rewrite length_make; exact Hlt).
    exists ErrUnexpectedEOF, (mkReader [] true).
    split; [reflexivity | now right].
Qed.

(** C2.  An array buffer (or a narrow string) that declares three bytes
    (six, as a string length) over a stream that holds one: [ReadValue]
    returns the byte followed by zeroes and no error.  The same bytes in a
    typed array, read by [binary.Read], are reported as truncated. *)
Theorem short_read_is_zero_filled :
  tryReadValue [12; 0; 15; 3; 42] = Returns (VSlice Uint8 [42; 0; 0]) None
  /\ tryReadValue [12; 0; 7; 6; 111]
     = Returns (VString (string_of_list_byte [x6f; x00; x00])) None
  /\ tryReadValue [12; 0; 14; 2; 3; 0; 15; 3; 42]
     = Returns VNil (Some ErrUnexpectedEOF).
Proof. repeat split; vm_compute; reflexivity. Qed.

(** ** Failure and the caller's record *)

(** A loop that panics did so in some iteration, after the iterations
    before it had completed. *)
Lemma forM_panic {St A} n (body : A -> Run St A) acc s p s' :
  forM n body acc s = (Panic p, s') ->
  exists j acc_j s_j,
    (j < n)%nat
    /\ forM j body acc s = (Ret acc_j, s_j)
    /\ body acc_j s_j = (Panic p, s').
Proof.
  revert acc s. induction n as [|n IH]; intros acc s E; [discriminate|].
  cbn [forM] in E. unfold bind in E.
  destruct (body acc s) as [[a|q|] s1] eqn:Eb; try discriminate.
  - destruct (IH _ _ E) as (j & aj & sj & Hj & Hrun & Hfail).
    exists (S j), aj, sj. split; [lia|]. split; [|exact Hfail].
    cbn [forM]. unfold bind. now rewrite Eb.
  - inversion E; subst. exists O, acc, s. split; [lia|]. now split.
Qed.

Lemma onReader_record {A} (m : Run Reader A) r v o r' v' :
  onReader m (r, v) = (o, (r', v')) -> v' = v.
Proof.
  unfold onReader. destruct (m r) as [o1 r1]. now inversion 1.
Qed.

Lemma setField_panic name x v p v' :
  setField name x v = (Panic p, v') -> v' = v.
Proof.
  unfold setField.
  repeat match goal with
         | |- context [match ?x with _ => _ end] => destruct x
         end; inversion 1; reflexivity.
Qed.

(** A property that fails to bind leaves the record as it was. *)
Lemma bindProperty_panic fuel atoms r v p r' v' :
  bindProperty fuel atoms tt (r, v) = (Panic p, (r', v')) -> v' = v.
Proof.
  unfold bindProperty, bind.
  destruct (onReader (readAtom atoms) (r, v)) as [[name|q|] [r1 v1]] eqn:E1;
    try discriminate;
    pose proof (onReader_record _ _ _ _ _ _ E1) as ->;
    [|now inversion 1].
  destruct (onReader (readValue fuel atoms) (r1, v)) as [[x|q|] [r2 v2]] eqn:E2;
    try discriminate;
    pose proof (onReader_record _ _ _ _ _ _ E2) as ->;
    [|now inversion 1].
  unfold onRecord.
  destruct (setField name x v) as [[b|q|] v3] eqn:E3; try discriminate.
  inversion 1; subst. exact (setField_panic _ _ _ _ _ E3).
Qed.

(** C3, as the code has it.  When [ReadValue] fails, the value it returns
    is nil.  When [ReadObject] fails, nothing is rolled back.  Either the
    failure comes before the first property (in the header, the tag or the
    count) and the record is untouched; or the header, the object tag and
    the count were read, some property [j] below the count is the first to
    fail, and the record is left exactly as the loop over the [j]
    properties before it has made it: the failing property changes
    nothing, and its panic is the error returned. *)
Theorem decode_failure_effects :
  (forall r v e r',
     ReadValue r = (Returns v (Some e), r') -> v = VNil)
  /\ (forall r v e r' v',
        ReadObject r v = (Returns tt (Some e), r', v') ->
        (v' = v
         /\ forall atoms r1 r2 count r3,
              ~ (readHeader r = (Ret atoms, r1)
                 /\ readByte r1 = (Ret tagObject, r2)
                 /\ readUint32 r2 = (Ret count, r3)))
        \/ exists atoms r1 r2 count r3 j rj p,
             readHeader r = (Ret atoms, r1)
             /\ readByte r1 = (Ret tagObject, r2)
             /\ readUint32 r2 = (Ret count, r3)
             /\ (j < Z.to_nat count)%nat
             /\ forM j (bindProperty (S (length (unread r))) atoms) tt (r3, v)
                = (Ret tt, (rj, v'))
             /\ bindProperty (S (length (unread r))) atoms tt (rj, v')
                = (Panic p, (r', v'))
             /\ recover "ReadObject" tt (Panic p) = Returns tt (Some e)).
Proof.
  split.
  - intros r v e r'. unfold ReadValue.
    destruct ((let* atoms := readHeader in
               readValue (S (length (unread r))) atoms) r) as [[x|[e'|m]|] r1];
      simpl; inversion 1; reflexivity.
  - intros r v e r' v'. unfold ReadObject.
    set (fuel := S (length (unread r))). unfold bind at 1.
    unfold onReader at 1.
    destruct (readHeader r) as [[atoms|q|] r1] eqn:E1;
      [| intros E; left; split;
         [destruct q; simpl in E; now inversion E
         | intros ? ? ? ? ? (H & _); discriminate H]
       | inversion 1].
    unfold bind at 1. unfold onReader at 1.
    destruct (readByte r1) as [[tag|q|] r2] eqn:E2;
      [| intros E; left; split;
         [destruct q; simpl in E; now inversion E
         | intros ? ? ? ? ? (H1 & H2 & _);
           injection H1 as <- <-; rewrite E2 in H2; discriminate H2]
       | inversion 1].
    destruct (Byte.eqb tag tagObject) eqn:Etag; cbn [negb].
    2:{ intros E. left. split; [simpl in E; now inversion E|].
        intros ? ? ? ? ? (H1 & H2 & _).
        injection H1 as <- <-. rewrite E2 in H2. injection H2 as Ht _.
        subst tag. vm_compute in Etag. discriminate Etag. }
    apply Byte.byte_dec_bl in Etag. subst tag.
    unfold bind at 1. unfold onReader at 1.
    destruct (readUint32 r2) as [[count|q|] r3] eqn:E3;
      [| intros E; left; split;
         [destruct q; simpl in E; now inversion E
         | intros ? ? ? ? ? (H1 & H2 & H3);
           injection H1 as <- <-; rewrite E2 in H2; injection H2 as <-;
           rewrite E3 in H3; discriminate H3]
       | inversion 1].
    destruct (forM (Z.to_nat count) (bindProperty fuel atoms) tt (r3, v))
      as [[[]|q|] [r4 v4]] eqn:E4; [inversion 1| |inversion 1].
    intros E. right.
    assert (r4 = r' /\ v4 = v') as [-> ->]
      by (destruct q; simpl in E; inversion E; now split).
    destruct (forM_panic _ _ _ _ _ _ E4) as (j & [] & [rj vj] & Hj & Hrun & Hf).
    pose proof (bindProperty_panic _ _ _ _ _ _ _ Hf) as Hv. subst vj.
    exists atoms, r1, r2, count, r3, j, rj, q.
    repeat split; try assumption.
    destruct q; simpl in E |- *; inversion E; reflexivity.
Qed.

(** The record of the package's test, [struct{ k int }{42}], and an
    object of two properties whose stream ends after the first, [k: null]:
    [ReadObject] fails with [io.EOF], and [k] is 0. *)
Lemma ReadObject_keeps_assignments :
  tryReadObject [mkField "k" TInt (VInt 42)] [12; 1; 2; 107; 8; 2; 2; 1]
  = (Returns tt (Some EOF), [mkField "k" TInt (VInt 0)])
  /\ [mkField "k" TInt (VInt 0)] <> [mkField "k" TInt (VInt 42)].
Proof. split; [vm_compute; reflexivity | discriminate]. Qed.

Lemma decode_failure_effects_witness :
  (exists r', ReadValue (NewReader (bytesOf [12; 0; 9; 2; 1]))
              = (Returns VNil (Some EOF), r'))
  /\ exists rj,
       forM 1 (bindProperty 9 ["k"%string]) tt
         (NewReader (bytesOf [2; 1]), [mkField "k" TInt (VInt 42)])
       = (Ret tt, (rj, [mkField "k" TInt (VInt 0)])).
Proof.
  split.
  - eexists. vm_compute. reflexivity.
  - destruct (proj2 decode_failure_effects
                (NewReader (bytesOf [12; 1; 2; 107; 8; 2; 2; 1]))
                [mkField "k" TInt (VInt 42)] EOF (mkReader [] true)
                [mkField "k" TInt (VInt 0)])
      as [[Hsame _]|(atoms & r1 & r2 & count & r3 & j & rj & p
                     & H1 & H2 & H3 & Hj & Hrun & Hfail & _)].
    + vm_compute. reflexivity.
    + discriminate Hsame.
    + vm_compute in H1. injection H1 as <- <-.
      vm_compute in H2. injection H2 as <-.
      vm_compute in H3. injection H3 as <- <-.
      change (Z.to_nat 2) with 2%nat in Hj.
      destruct j as [|[|j]]; [| |lia].
      * vm_compute in Hrun. discriminate Hrun.
      * exists rj. exact Hrun.
Defined.

(** ** The field binder *)

Lemma fieldIndex_first name fs i0 i f :
  fs !! i = Some f -> fieldName f = name ->
  (forall j g, (j < i)%nat -> fs !! j = Some g -> fieldName g <> name) ->
  fieldIndex name fs i0 = Some (i0 + i)%nat.
Proof.
  revert i0 i. induction fs as [|g fs IH]; intros i0 i Hi Hn Hfirst;
    [discriminate|].
  cbn [fieldIndex]. destruct i as [|i].
  - injection Hi as ->. rewrite (proj2 (String.eqb_eq _ _) Hn).
    now rewrite Nat.add_0_r.
  - rewrite (proj2 (String.eqb_neq _ _) (Hfirst O g ltac:(lia) eq_refl)).
    rewrite (IH (S i0) i Hi Hn).
    + f_equal. lia.
    + intros j h Hj Hh. apply (Hfirst (S j) h); [lia | exact Hh].
Qed.

Lemma fieldIndex_none name fs i0 :
  (forall f, f ∈ fs -> fieldName f <> name) -> fieldIndex name fs i0 = None.
Proof.
  revert i0. induction fs as [|g fs IH]; intros i0 Hno; [reflexivity|].
  cbn [fieldIndex].
  rewrite (proj2 (String.eqb_neq _ _) (Hno g ltac:(left))).
  apply IH. intros f Hf. apply Hno. now right.
Qed.

Lemma FieldByName_first rec name i f :
  firstNamed rec name i f -> FieldByName rec name = Some i.
Proof.
  intros (Hne & Hi & Hn & Hfirst). unfold FieldByName.
  rewrite (proj2 (String.eqb_neq _ _) Hne).
  exact (fieldIndex_first name rec O i f Hi Hn Hfirst).
Qed.

(** C4, as the code has it.  A key that names no field is skipped and the
    record is left as it is.  A key that names a field (the first of that
    exact name) sets it, in the record supplied: to the zero value of its
    type for a nil value; to the value itself when the value's type is
    assignable to the field's type; and it panics with the type mismatch,
    changing nothing, otherwise.  [Undefined] is not nil: it is bound as a
    value of type [UndefinedValue]. *)
Theorem setField_spec (rec : record) (name : string) :
  ((forall f, f ∈ rec -> fieldName f <> name) ->
     forall x, setField name x rec = (Ret false, rec))
  /\ (forall i f, firstNamed rec name i f ->
        setField name VNil rec
        = (Ret true, <[i := setFieldValue (zeroValue (fieldType f)) f]> rec)
        /\ (forall x t, typeOf x = Some t ->
              assignable t (fieldType f) = true ->
              setField name x rec
              = (Ret true, <[i := setFieldValue x f]> rec))
        /\ (forall x t, typeOf x = Some t ->
              assignable t (fieldType f) = false ->
              setField name x rec
              = (Panic (PMsg (TypeMismatch t (fieldType f))), rec))
        /\ typeOf VUndefined = Some TUndefinedValue).
Proof.
  split.
  - intros Hno x. unfold setField, FieldByName.
    destruct (String.eqb name EmptyString); [reflexivity|].
    now rewrite (fieldIndex_none name rec O Hno).
  - intros i f Hf. pose proof (FieldByName_first _ _ _ _ Hf) as Hi.
    destruct Hf as (_ & Hl & _ & _).
    split; [|split; [|split]].
    + unfold setField. now rewrite Hi, Hl.
    + intros x t Ht Ha. unfold setField. now rewrite Hi, Hl, Ht, Ha.
    + intros x t Ht Ha. unfold setField. now rewrite Hi, Hl, Ht, Ha.
    + reflexivity.
Qed.

(** [struct{ k int }{42}] and the object [{k: undefined}]: the field is
    not set to zero; [ReadObject] fails and [k] is still 42. *)
Lemma undefined_is_not_zeroed :
  tryReadObject [mkField "k" TInt (VInt 42)] [12; 1; 2; 107; 8; 1; 2; 2]
  = (Returns tt (Some (Errorf "ReadObject" (TypeMismatch TUndefinedValue TInt))),
     [mkField "k" TInt (VInt 42)]).
Proof. vm_compute. reflexivity. Qed.

Lemma setField_spec_witness :
  let rec := [mkField "k" TInt (VInt 42); mkField "u" TUndefinedValue VUndefined] in
  setField "zz" (VBool true) rec = (Ret false, rec)
  /\ setField "k" VNil rec
     = (Ret true, [mkField "k" TInt (VInt 0); mkField "u" TUndefinedValue VUndefined])
  /\ setField "k" (VInt 7) rec
     = (Ret true, [mkField "k" TInt (VInt 7); mkField "u" TUndefinedValue VUndefined])
  /\ setField "k" VUndefined rec
     = (Panic (PMsg (TypeMismatch TUndefinedValue TInt)), rec)
  /\ setField "u" VUndefined rec = (Ret true, rec).
Proof.
  intros rec.
  assert (Hk : firstNamed rec "k" 0 (mkField "k" TInt (VInt 42))).
  { repeat split; [discriminate | intros j g Hj; lia]. }
  assert (Hu : firstNamed rec "u" 1 (mkField "u" TUndefinedValue VUndefined)).
  { repeat split; [discriminate|]. intros j g Hj Hg.
    destruct j as [|j]; [|lia]. injection Hg as <-. discriminate. }
  split; [|split; [|split; [|split]]].
  - apply (proj1 (setField_spec rec "zz")).
    intros f Hf. apply list_elem_of_In in Hf.
    destruct Hf as [<-|[<-|[]]]; discriminate.
  - exact (proj1 (proj2 (setField_spec rec "k") _ _ Hk)).
  - exact (proj1 (proj2 (proj2 (setField_spec rec "k") _ _ Hk))
             (VInt 7) TInt eq_refl eq_refl).
  - exact (proj1 (proj2 (proj2 (proj2 (setField_spec rec "k") _ _ Hk)))
             VUndefined TUndefinedValue eq_refl eq_refl).
  - exact (proj1 (proj2 (proj2 (setField_spec rec "u") _ _ Hu))
             VUndefined TUndefinedValue eq_refl eq_refl).
Defined.

(** ** Nesting depth *)

Lemma length_nestedArrayBytes d : length (nestedArrayBytes d) = (2 * d + 1)%nat.
Proof. induction d as [|d IH]; simpl; lia. Qed.

Lemma readUint32_one l sh :
  readUint32 (mkReader (x01 :: l) sh) = (Ret 1, mkReader l sh).
Proof.
  unfold readUint32, bind, ReadUvarint. cbn [readUvarintLoop].
  unfold bind. rewrite ReadByte_cons. reflexivity.
Qed.

Lemma readUint32_zero l sh :
  readUint32 (mkReader (x00 :: l) sh) = (Ret 0, mkReader l sh).
Proof.
  unfold readUint32, bind, ReadUvarint. cbn [readUvarintLoop].
  unfold bind. rewrite ReadByte_cons. reflexivity.
Qed.

Lemma readValue_nested d : forall fuel atoms rest sh,
  (d < fuel)%nat ->
  readValue fuel atoms (mkReader (nestedArrayBytes d ++ rest) sh)
  = (Ret (nestedArray d), mkReader rest sh).
Proof.
  induction d as [|d IH]; intros fuel atoms rest sh Hlt;
    (destruct fuel as [|fuel]; [lia|]); cbn [readValue nestedArrayBytes app].
  - unfold bind. rewrite readByte_cons. reflexivity.
  - unfold bind at 1. rewrite readByte_cons.
    change (Byte.eqb tagArray tagNull) with false.
    change (Byte.eqb tagArray tagUndefined) with false.
    change (Byte.eqb tagArray tagFalse) with false.
    change (Byte.eqb tagArray tagTrue) with false.
    change (Byte.eqb tagArray tagInt32) with false.
    change (Byte.eqb tagArray tagFloat64) with false.
    change (Byte.eqb tagArray tagString) with false.
    change (Byte.eqb tagArray tagObject) with false.
    change (Byte.eqb tagArray tagArray) with true.
    cbv iota. unfold bind at 1. rewrite readUint32_one.
    change (Z.to_nat 1) with 1%nat. cbn [forM].
    unfold bind at 1. unfold bind at 1. unfold bind at 1.
    rewrite IH by lia. reflexivity.
Qed.

(** 1001 nested arrays, one more than the bound the spec gives as an
    example, decode without an error. *)
Lemma deep_nesting_decodes :
  ReadValue (NewReader (bcVersion :: x00 :: nestedArrayBytes 1001))
  = (Returns (nestedArray 1001) None, NewReader []).
Proof.
  unfold ReadValue, NewReader, bind. rewrite readHeader_empty.
  cbn [unread].
  rewrite <- (app_nil_r (nestedArrayBytes 1001)) at 2.
  rewrite readValue_nested; [reflexivity|].
  cbn [length]. rewrite length_nestedArrayBytes. lia.
Qed.

(** C1, as the code has it.  The decoder has no depth bound and no depth
    counter: arrays nested to any depth up to 1001, which is beyond the
    bound the spec gives as an example, decode to the value of that depth.
    What bounds the recursion in the code is the input: each descent
    consumes a byte, so a depth above the number of unread bytes is never
    needed. *)
Theorem nesting_is_bounded_by_input_only :
  (forall d,
     (d <= 1001)%nat ->
     ReadValue (NewReader (bcVersion :: x00 :: nestedArrayBytes d))
     = (Returns (nestedArray d) None, NewReader []))
  /\ (forall depth atoms r,
        (avail r < depth)%nat -> fst (readValue depth atoms r) <> OutOfFuel).
Proof.
  split.
  - intros d _. unfold ReadValue, NewReader, bind. rewrite readHeader_empty.
    cbn [unread].
    rewrite <- (app_nil_r (nestedArrayBytes d)) at 2.
    rewrite readValue_nested; [reflexivity|].
    cbn [length]. rewrite length_nestedArrayBytes. lia.
  - intros depth atoms r Hlt.
    destruct (readValue depth atoms r) as [o r'] eqn:E.
    exact (proj1 (readValue_fuel_enough depth atoms (avail r) Hlt r o r' E
                    (Nat.le_refl _))).
Qed.

Lemma nesting_is_bounded_by_input_only_witness :
  ReadValue (NewReader (bcVersion :: x00 :: nestedArrayBytes 3))
  = (Returns (VArray [VArray [VArray [VNil]]]) None, NewReader [])
  /\ fst (readValue 3 [] (NewReader (bytesOf [9; 1]))) <> OutOfFuel.
Proof.
  split.
  - apply (proj1 nesting_is_bounded_by_input_only 3%nat). lia.
  - apply (proj2 nesting_is_bounded_by_input_only).
    unfold avail, avail_reader. simpl. lia.
Defined.

(** ** Bytes after the value *)

Lemma framed_ret {A} (a : A) : framed (ret a).
Proof. intros r o r' E Hs. inversion E; subst. now split. Qed.

Lemma framed_panic {A} p : framed (@panic Reader A p).
Proof. intros r o r' E Hs. inversion E; subst. now split. Qed.

Lemma framed_outOfFuel {A} : framed (@outOfFuel Reader A).
Proof. intros r o r' E Hs. inversion E; subst. now split. Qed.

Lemma framed_bind {A B} (m : Run Reader A) (k : A -> Run Reader B) :
  framed m -> (forall a, framed (k a)) -> framed (bind m k).
Proof.
  intros Hm Hk r o r' E Hs. unfold bind in E.
  destruct (m r) as [[a|p|] r1] eqn:E1.
  - destruct (Hk a _ _ _ E Hs) as [Hs1 Hk'].
    destruct (Hm _ _ _ E1 Hs1) as [Hs0 Hm'].
    split; [exact Hs0|]. intros t. unfold bind. now rewrite Hm', Hk'.
  - inversion E; subst. destruct (Hm _ _ _ E1 Hs) as [Hs0 Hm'].
    split; [exact Hs0|]. intros t. unfold bind. now rewrite Hm'.
  - inversion E; subst. destruct (Hm _ _ _ E1 Hs) as [Hs0 Hm'].
    split; [exact Hs0|]. intros t. unfold bind. now rewrite Hm'.
Qed.

Lemma framed_forM {A} n (body : A -> Run Reader A) acc :
  (forall a, framed (body a)) -> framed (forM n body acc).
Proof.
  intros Hb. revert acc. induction n as [|n IH]; intros acc; simpl.
  - apply framed_ret.
  - apply framed_bind; [apply Hb | exact IH].
Qed.

Lemma framed_ReadByte : framed ReadByte.
Proof.
  intros [[|b l] sh] o r' E Hs.
  - rewrite ReadByte_nil in E. inversion E; subst. discriminate.
  - rewrite ReadByte_cons in E. inversion E; subst. cbn [short] in *.
    split; [exact Hs|]. intros t. unfold extend. cbn [unread short app].
    now rewrite ReadByte_cons.
Qed.

Lemma framed_readByte : framed readByte.
Proof.
  intros [[|b l] sh] o r' E Hs.
  - rewrite readByte_nil in E. inversion E; subst. discriminate.
  - rewrite readByte_cons in E. inversion E; subst. cbn [short] in *.
    split; [exact Hs|]. intros t. unfold extend. cbn [unread short app].
    now rewrite readByte_cons.
Qed.

Lemma framed_readBytes n : framed (readBytes n).
Proof.
  intros [l sh] o r' E Hs. unfold readBytes, bind, Read in E.
  cbn [unread short] in E. rewrite length_make in E.
  destruct l as [|a l].
  - (* at the end of the data: only a request for no bytes is not short *)
    destruct (Nat.eqb (Z.to_nat n) 0) eqn:E0.
    2:{ destruct (0 <? n); inversion E; subst; cbn [short] in Hs;
        rewrite orb_true_r in Hs; discriminate. }
    apply Nat.eqb_eq in E0.
    replace (0 <? n) with false in E by (symmetry; apply Z.ltb_ge; lia).
    inversion E; subst. cbn [short negb] in Hs. rewrite orb_false_r in Hs.
    split; [exact Hs|]. intros t. unfold extend. cbn [unread short app].
    unfold readBytes, bind, Read. cbn [unread short]. rewrite length_make, E0.
    replace (0 <? n) with false by (symmetry; apply Z.ltb_ge; lia).
    destruct t as [|b t]; cbn; now rewrite ?orb_false_r.
  - set (k := Nat.min (Z.to_nat n) (length (a :: l))) in *.
    inversion E; subst o r'. cbn [short] in Hs.
    apply orb_false_iff in Hs. destruct Hs as [Hs Hk].
    apply Nat.ltb_ge in Hk.
    assert (Hn : (Z.to_nat n <= length (a :: l))%nat) by (subst k; lia).
    split; [exact Hs|]. intros t. unfold extend. cbn [unread short].
    unfold readBytes, bind, Read. rewrite length_make.
    change ((a :: l) ++ t) with (a :: (l ++ t)).
    cbn [unread short].
    change (a :: (l ++ t)) with ((a :: l) ++ t).
    replace (Nat.min (Z.to_nat n) (length ((a :: l) ++ t))) with k
      by (subst k; rewrite length_app; lia).
    replace k with (Z.to_nat n) by (subst k; lia).
    rewrite Nat.ltb_irrefl, orb_false_r.
    rewrite firstn_app, skipn_app.
    replace (Z.to_nat n - length (a :: l))%nat with O by lia.
    rewrite firstn_O, app_nil_r, skipn_O. reflexivity.
Qed.

Lemma framed_ReadFull buf : framed (ReadFull buf).
Proof.
  intros [l sh] o r' E Hs.
  destruct (le_lt_dec (length buf) (length l)) as [Hle|Hlt].
  - rewrite ReadFull_enough in E by exact Hle. inversion E; subst.
    cbn [short] in Hs. split; [exact Hs|]. intros t.
    unfold extend. cbn [unread short].
    rewrite ReadFull_enough by (rewrite length_app; lia).
    rewrite firstn_app, skipn_app.
    replace (length buf - length l)%nat with O by lia.
    now rewrite firstn_O, app_nil_r, skipn_O.
  - destruct l as [|a l].
    + rewrite ReadFull_eof in E by (intros ->; simpl in Hlt; lia).
      inversion E; subst. discriminate.
    + rewrite ReadFull_short in E by exact Hlt.
      inversion E; subst. discriminate.
Qed.

(** One syntax-directed step of a [framed] proof. *)
Ltac framed_step :=
  lazymatch goal with
  | |- framed (bind _ _) => apply framed_bind; [|intros ?]
  | |- framed (ret _) => apply framed_ret
  | |- framed (panic _) => apply framed_panic
  | |- framed outOfFuel => apply framed_outOfFuel
  | |- framed (panicIf ?e) => destruct e; [apply framed_panic | apply framed_ret]
  | |- framed (forM _ _ _) => apply framed_forM; intros ?
  | |- framed (if ?c then _ else _) => destruct c
  | |- framed (match ?x with (_, _) => _ end) => destruct x
  | |- framed (match ?x with Some _ => _ | None => _ end) => destruct x
  | |- framed (match ?x with EOF => _ | _ => _ end) => destruct x
  end.

Lemma framed_readUvarintLoop todo i x s : framed (readUvarintLoop todo i x s).
Proof.
  revert i x s. induction todo as [|todo IH]; intros i x s; simpl.
  - apply framed_ret.
  - repeat framed_step; try apply framed_ReadByte. apply IH.
Qed.

Lemma framed_ReadVarint : framed ReadVarint.
Proof.
  unfold ReadVarint, ReadUvarint. repeat framed_step.
  apply framed_readUvarintLoop.
Qed.

Lemma framed_readUint32 : framed readUint32.
Proof.
  unfold readUint32, ReadUvarint. repeat framed_step.
  apply framed_readUvarintLoop.
Qed.

Lemma framed_binaryRead t n : framed (binaryRead t n).
Proof. unfold binaryRead. repeat framed_step. apply framed_ReadFull. Qed.

Lemma framed_readString : framed readString.
Proof.
  unfold readString. repeat framed_step;
    first [apply framed_readUint32 | apply framed_binaryRead
          | apply framed_readBytes].
Qed.

Lemma framed_readHeader : framed readHeader.
Proof.
  unfold readHeader. repeat framed_step;
    first [apply framed_readByte | apply framed_readUint32
          | apply framed_readString].
Qed.

Lemma framed_readAtom atoms : framed (readAtom atoms).
Proof. unfold readAtom. repeat framed_step. apply framed_readUint32. Qed.

Lemma framed_readValue fuel atoms : framed (readValue fuel atoms).
Proof.
  induction fuel as [|fuel IH]; cbn [readValue]; [apply framed_outOfFuel|].
  repeat framed_step;
    first [ exact IH | apply framed_ReadVarint | apply framed_binaryRead
          | apply framed_readString | apply framed_readUint32
          | apply framed_readAtom | apply framed_readBytes
          | apply framed_readByte ].
Qed.

Lemma refines_refl {A} (m : Run Reader A) : refines m m.
Proof. intros r o r' E _. exact E. Qed.

Lemma refines_outOfFuel {A} (m : Run Reader A) : refines outOfFuel m.
Proof. intros r o r' E Ho. inversion E; subst. congruence. Qed.

Lemma refines_bind {A B} (m m' : Run Reader A) (k k' : A -> Run Reader B) :
  refines m m' -> (forall a, refines (k a) (k' a)) ->
  refines (bind m k) (bind m' k').
Proof.
  intros Hm Hk r o r' E Ho. unfold bind in *.
  destruct (m r) as [[a|p|] r1] eqn:E1.
  - rewrite (Hm _ _ _ E1) by discriminate. exact (Hk a _ _ _ E Ho).
  - rewrite (Hm _ _ _ E1) by discriminate. exact E.
  - inversion E; subst. congruence.
Qed.

Lemma refines_forM {A} n (body body' : A -> Run Reader A) acc :
  (forall a, refines (body a) (body' a)) ->
  refines (forM n body acc) (forM n body' acc).
Proof.
  intros Hb. revert acc. induction n as [|n IH]; intros acc; simpl.
  - apply refines_refl.
  - apply refines_bind; [apply Hb | exact IH].
Qed.

(** More fuel does not change what [readValue] returns. *)
Lemma readValue_fuel_mono fuel : forall fuel' atoms,
  (fuel <= fuel')%nat -> refines (readValue fuel atoms) (readValue fuel' atoms).
Proof.
  induction fuel as [|fuel IH]; intros fuel' atoms Hle; cbn [readValue].
  - apply refines_outOfFuel.
  - destruct fuel' as [|fuel']; [lia|]. cbn [readValue].
    assert (IH' : refines (readValue fuel atoms) (readValue fuel' atoms))
      by (apply IH; lia).
    apply refines_bind; [apply refines_refl|]. intros tag.
    repeat lazymatch goal with
           | |- refines (if ?c then _ else _) (if ?c then _ else _) =>
               destruct c
           end;
      try apply refines_refl.
    + apply refines_bind; [apply refines_refl|]. intros n.
      apply refines_bind; [|intros ?; apply refines_refl].
      apply refines_forM. intros m.
      apply refines_bind; [apply refines_refl|]. intros atom.
      apply refines_bind; [exact IH'|]. intros ?. apply refines_refl.
    + apply refines_bind; [apply refines_refl|]. intros n.
      apply refines_bind; [|intros ?; apply refines_refl].
      apply refines_forM. intros v.
      apply refines_bind; [exact IH'|]. intros ?. apply refines_refl.
Qed.

(** C9.  Let [p] be a complete header and value: [ReadValue] on [p] alone
    returns [v] without an error, reads [p] to its end, and none of its
    reads comes up short.  Then on [p] followed by any bytes [t],
    [ReadValue] returns the same [v] without an error and leaves [t]
    unread, whatever [t] holds. *)
Theorem trailing_bytes_ignored (p t : list byte) (v : value) :
  ReadValue (NewReader p) = (Returns v None, NewReader []) ->
  ReadValue (NewReader (p ++ t)) = (Returns v None, NewReader t).
Proof.
  unfold ReadValue, NewReader. cbn [unread]. intros E.
  set (m := fun fuel => let* atoms := readHeader in readValue fuel atoms) in *.
  change ((let '(o, r') := m (S (length p)) (mkReader p false) in
           (recover "ReadValue" VNil o, r'))
          = (Returns v None, mkReader [] false)) in E.
  change ((let '(o, r') := m (S (length (p ++ t))) (mkReader (p ++ t) false) in
           (recover "ReadValue" VNil o, r'))
          = (Returns v None, mkReader t false)).
  destruct (m (S (length p)) (mkReader p false)) as [o r'] eqn:Em.
  assert (o = Ret v /\ r' = mkReader [] false) as [-> ->].
  { destruct o as [x|[e|q]|]; simpl in E; inversion E; now subst. }
  assert (Hf : framed (m (S (length p)))).
  { unfold m. apply framed_bind; [apply framed_readHeader|].
    intros atoms. apply framed_readValue. }
  destruct (Hf _ _ _ Em eq_refl) as [_ Hext]. specialize (Hext t).
  unfold extend in Hext. cbn [unread short app] in Hext.
  assert (Hr : refines (m (S (length p))) (m (S (length (p ++ t))))).
  { unfold m. apply refines_bind; [apply refines_refl|]. intros atoms.
    apply readValue_fuel_mono. rewrite length_app. lia. }
  rewrite (Hr _ _ _ Hext) by discriminate. reflexivity.
Qed.

Lemma trailing_bytes_ignored_witness :
  ReadValue (NewReader (bytesOf [12; 0; 15; 1; 42]))
  = (Returns (VSlice Uint8 [42]) None, NewReader [])
  /\ ReadValue (NewReader (bytesOf [12; 0; 15; 1; 42] ++ bytesOf [7; 7; 7]))
     = (Returns (VSlice Uint8 [42]) None, NewReader (bytesOf [7; 7; 7])).
Proof.
  split; [reflexivity|].
  apply (trailing_bytes_ignored (bytesOf [12; 0; 15; 1; 42])
           (bytesOf [7; 7; 7]) (VSlice Uint8 [42])).
  reflexivity.
Defined.

(** The history variable separates a complete value from one that
    [readBytes] has filled up with zeroes: on the latter a read was short,
    and bytes appended to it do change the result. *)
Lemma zero_filled_is_not_complete :
  ReadValue (NewReader (bytesOf [12; 0; 15; 3; 42]))
  = (Returns (VSlice Uint8 [42; 0; 0]) None, mkReader [] true)
  /\ ReadValue (NewReader (bytesOf [12; 0; 15; 3; 42] ++ bytesOf [7]))
     = (Returns (VSlice Uint8 [42; 7; 0]) None, mkReader [] true).
Proof. split; vm_compute; reflexivity. Qed.

(** ** Round trips *)

Lemma byteVal_range b : 0 <= byteVal b < 256.
Proof.
  unfold byteVal. pose proof (Byte.to_N_bounded b). lia.
Qed.

Lemma byteVal_byteOf z : byteVal (byteOf z) = z mod 256.
Proof.
  unfold byteVal, byteOf.
  pose proof (Z.mod_pos_bound z 256 ltac:(lia)) as Hm.
  destruct (Byte.of_N (Z.to_N (z mod 256))) as [b|] eqn:E.
  - apply Byte.to_of_N in E. rewrite E. lia.
  - apply Byte.of_N_None_iff in E. lia.
Qed.

Lemma byteOf_byteVal b : byteOf (byteVal b) = b.
Proof.
  unfold byteOf. pose proof (byteVal_range b) as Hr.
  rewrite Z.mod_small by exact Hr. unfold byteVal.
  now rewrite N2Z.id, Byte.of_to_N.
Qed.

(** The continuation byte [byte(x) | 0x80] that [PutUvarint] stores. *)
Lemma continuation_byte b :
  (byteVal (byteOf (Z.lor (byteVal b) 128)) <? 128) = false
  /\ Z.land (byteVal (byteOf (Z.lor (byteVal b) 128))) 127 = byteVal b mod 128.
Proof. destruct b; vm_compute; split; reflexivity. Qed.

Lemma uint64_small z : 0 <= z < 2 ^ 64 -> uint64 z = z.
Proof. intros Hz. unfold uint64. now apply Z.mod_small. Qed.

Lemma split_low7 x s :
  0 <= s ->
  Z.lor (Z.shiftl (x mod 128) s) (Z.shiftl (Z.shiftr x 7) (s + 7))
  = Z.shiftl x s.
Proof.
  intros Hs. rewrite (Z.add_comm s 7), <- Z.shiftl_shiftl by lia.
  rewrite <- Z.shiftl_lor. f_equal.
  change 128 with (2 ^ 7). rewrite <- Z.land_ones by lia.
  rewrite <- Z.ldiff_ones_r by lia.
  rewrite Z.lor_comm. apply Z.lor_ldiff_and.
Qed.

(** [ReadUvarint] reads back what [PutUvarint] has stored. *)
Lemma readUvarintLoop_PutUvarint cap : forall x bs todo i acc s rest sh,
  PutUvarint cap x = Some bs ->
  0 <= x -> 0 <= s -> x * 2 ^ s < 2 ^ 64 ->
  (length bs <= todo)%nat -> i + Z.of_nat (length bs) <= 9 ->
  readUvarintLoop todo i acc s (mkReader (bs ++ rest) sh)
  = (Ret (Z.lor acc (Z.shiftl x s), None), mkReader rest sh).
Proof.
  induction cap as [|cap IH]; intros x bs todo i acc s rest sh HP Hx Hs Hb Ht Hi;
    cbn [PutUvarint] in HP; [discriminate|].
  assert (H2s : 0 < 2 ^ s) by (apply Z.pow_pos_nonneg; lia).
  destruct (128 <=? x) eqn:E128.
  - apply Z.leb_le in E128.
    destruct (PutUvarint cap (Z.shiftr x 7)) as [bs'|] eqn:HP'; [|discriminate].
    injection HP as <-. cbn [length] in Ht, Hi.
    destruct todo as [|todo]; [lia|].
    cbn [readUvarintLoop app]. unfold bind at 1. rewrite ReadByte_cons.
    destruct (continuation_byte (byteOf x)) as [Hc1 Hc2].
    rewrite Hc1, Hc2, byteVal_byteOf.
    rewrite (Z.mod_mod_divide x 256 128) by (now exists 2).
    pose proof (Z.mod_pos_bound x 128 ltac:(lia)) as Hm.
    pose proof (Z.mod_le x 128 Hx ltac:(lia)) as Hml.
    rewrite uint64_small
      by (rewrite Z.shiftl_mul_pow2 by lia; split; [nia | nia]).
    assert (Hsh : Z.shiftr x 7 = x / 128)
      by (rewrite Z.shiftr_div_pow2 by lia; reflexivity).
    assert (Hdiv : 0 <= x / 128) by (apply Z.div_pos; lia).
    assert (Hmul : x / 128 * 128 <= x)
      by (pose proof (Z.mul_div_le x 128 ltac:(lia)); lia).
    rewrite (IH (Z.shiftr x 7) bs' todo (i + 1) _ (s + 7) rest sh HP');
      try lia.
    + rewrite <- Z.lor_assoc, split_low7 by lia. reflexivity.
    + rewrite Hsh. rewrite Z.pow_add_r by lia. change (2 ^ 7) with 128. nia.
  - apply Z.leb_gt in E128. injection HP as <-. cbn [length] in Ht, Hi.
    destruct todo as [|todo]; [lia|].
    cbn [readUvarintLoop app]. unfold bind at 1. rewrite ReadByte_cons.
    rewrite byteVal_byteOf, Z.mod_small by lia.
    replace (x <? 128) with true by (symmetry; apply Z.ltb_lt; lia).
    replace (i =? 9) with false by (symmetry; apply Z.eqb_neq; lia).
    cbn [andb].
    rewrite uint64_small by (rewrite Z.shiftl_mul_pow2 by lia; nia).
    reflexivity.
Qed.

Lemma PutUvarint_some cap : forall x,
  0 <= x < 2 ^ (7 * Z.of_nat (S cap)) ->
  exists bs, PutUvarint (S cap) x = Some bs /\ (length bs <= S cap)%nat.
Proof.
  induction cap as [|cap IH]; intros x Hx.
  - change (2 ^ (7 * Z.of_nat 1)) with 128 in Hx. cbn [PutUvarint].
    replace (128 <=? x) with false by (symmetry; apply Z.leb_gt; lia).
    eexists. split; [reflexivity | simpl; lia].
  - cbn [PutUvarint]. destruct (128 <=? x) eqn:E128.
    + apply Z.leb_le in E128.
      destruct (IH (Z.shiftr x 7)) as (bs & HP & Hl).
      * rewrite Z.shiftr_div_pow2 by lia. change (2 ^ 7) with 128.
        split; [apply Z.div_pos; lia|].
        apply Z.div_lt_upper_bound; [lia|].
        replace (7 * Z.of_nat (S (S cap))) with (7 + 7 * Z.of_nat (S cap))
          in Hx by lia.
        rewrite Z.pow_add_r in Hx by lia. change (2 ^ 7) with 128 in Hx. lia.
      * cbn [PutUvarint] in HP. rewrite HP.
        eexists. split; [reflexivity | simpl; lia].
    + eexists. split; [reflexivity | simpl; lia].
Qed.

(** [readUint32] reads back the count that [writeUvarint] has written. *)
Lemma readUint32_writeUvarint n :
  0 <= n <= MaxUint32 ->
  exists bs,
    (forall w, writeUvarint n w = (Ret tt, w ++ bs))
    /\ (forall rest sh,
          readUint32 (mkReader (bs ++ rest) sh) = (Ret n, mkReader rest sh)).
Proof.
  intros Hn. unfold MaxUint32 in Hn.
  destruct (PutUvarint_some 7 n) as (bs & HP & Hl).
  { change (2 ^ (7 * Z.of_nat 8)) with 72057594037927936. lia. }
  exists bs. split.
  - intros w. unfold writeUvarint.
    rewrite uint64_small by (change (2 ^ 64) with 18446744073709551616; lia).
    now rewrite HP.
  - intros rest sh. unfold readUint32, bind, ReadUvarint.
    rewrite (readUvarintLoop_PutUvarint 8 n bs 10 0 0 0 rest sh HP);
      try lia.
    rewrite Z.lor_0_l, Z.shiftl_0_r.
      replace (MaxUint32 <? n) with false
        by (symmetry; apply Z.ltb_ge; unfold MaxUint32; lia).
      replace (MaxInt <? n) with false
        by (symmetry; apply Z.ltb_ge; unfold MaxInt; lia).
      reflexivity.
Qed.

Lemma length_leBytes k : forall z, length (leBytes k z) = k.
Proof. induction k as [|k IH]; intros z; simpl; [|rewrite IH]; reflexivity. Qed.

Lemma leUint_leBytes k : forall z,
  leUint (leBytes k z) = z mod 2 ^ (8 * Z.of_nat k).
Proof.
  induction k as [|k IH]; intros z.
  - simpl. now rewrite Z.mod_1_r.
  - cbn [leBytes leUint]. rewrite byteVal_byteOf, IH.
    rewrite Z.shiftr_div_pow2 by lia. change (2 ^ 8) with 256.
    replace (8 * Z.of_nat (S k)) with (8 + 8 * Z.of_nat k) by lia.
    rewrite Z.pow_add_r by lia. change (2 ^ 8) with 256.
    rewrite Z.rem_mul_r; [reflexivity | lia |].
    apply Z.pow_pos_nonneg; lia.
Qed.

Lemma mod_of_negative z m : - m <= z < 0 -> z mod m = z + m.
Proof.
  intros Hz. symmetry. apply (Z.mod_unique_pos z m (-1) (z + m)); lia.
Qed.

(** Quieting keeps a bit pattern within its 32 bits. *)
Lemma viaFloat64_range z : 0 <= z < 2 ^ 32 -> 0 <= viaFloat64 z < 2 ^ 32.
Proof.
  intros Hz. unfold viaFloat64. destruct (isNaN32 z); [|exact Hz].
  split; [apply Z.lor_nonneg; lia|].
  destruct (Z.eq_dec (Z.lor z 4194304) 0) as [->|Hne]; [lia|].
  apply Z.log2_lt_pow2; [pose proof (proj2 (Z.lor_nonneg z 4194304)); lia|].
  rewrite Z.log2_lor by lia.
  apply Z.max_lub_lt; [|vm_compute; reflexivity].
  destruct (Z.eq_dec z 0) as [->|Hz0]; [vm_compute; reflexivity|].
  apply Z.log2_lt_pow2; lia.
Qed.

(** A pattern that is no signalling NaN goes through the conversion
    unchanged. *)
Lemma viaFloat64_quiet z : signalling32 z = false -> viaFloat64 z = z.
Proof.
  unfold signalling32, viaFloat64. destruct (isNaN32 z); [|reflexivity].
  cbn [andb]. intros Hq. apply negb_false_iff in Hq.
  apply Z.bits_inj'. intros n Hn. rewrite Z.lor_spec.
  change 4194304 with (2 ^ 22). rewrite Z.pow2_bits_eqb by lia.
  destruct (Z.eqb_spec 22 n) as [<-|_];
    [rewrite Hq; reflexivity | apply orb_false_r].
Qed.

Lemma decodeElem_encodeElem t z :
  inRange t z -> decodeElem t (encodeElem t z) = stored t z.
Proof.
  unfold inRange, decodeElem, encodeElem, stored. rewrite leUint_leBytes.
  destruct t; cbn [elemSize signed andb];
    match goal with
    | |- context [2 ^ (?w - 1)] =>
        let a := eval vm_compute in (2 ^ (w - 1)) in
        let b := eval vm_compute in (2 ^ w) in
        change (2 ^ (w - 1)) with a; change (2 ^ w) with b
    | |- context [2 ^ ?w] =>
        let b := eval vm_compute in (2 ^ w) in change (2 ^ w) with b
    end;
    intros Hz;
    try (rewrite Z.mod_small by lia; reflexivity);
    (destruct (Z_lt_le_dec z 0) as [Hneg|Hpos];
     [ rewrite mod_of_negative by lia;
       match goal with
       | |- (if ?c then _ else _) = _ =>
           replace c with true by (symmetry; apply Z.leb_le; lia)
       end; lia
     | rewrite Z.mod_small by lia;
       match goal with
       | |- (if ?c then _ else _) = _ =>
           replace c with false by (symmetry; apply Z.leb_gt; lia)
       end; reflexivity ]).
Qed.

(** For every element type but [float32], and for a [float32] that is no
    signalling NaN, an element is stored as it was written. *)
Lemma stored_same t z :
  (t = Float32 -> signalling32 z = false) -> stored t z = z.
Proof.
  intros H. destruct t; try reflexivity. apply viaFloat64_quiet. now apply H.
Qed.

Lemma map_stored_same t l :
  (t = Float32 -> Forall (fun z => signalling32 z = false) l) ->
  map (stored t) l = l.
Proof.
  intros H. induction l as [|z l IH]; [reflexivity|]. cbn [map].
  rewrite stored_same, IH; [reflexivity| |].
  - intros Ht. exact (proj2 (Forall_cons_1 _ _ _ (H Ht))).
  - intros Ht. exact (proj1 (Forall_cons_1 _ _ _ (H Ht))).
Qed.

Lemma length_concat_leBytes k l :
  length (concat (map (leBytes k) l)) = (length l * k)%nat.
Proof.
  induction l as [|z l IH]; [reflexivity|].
  cbn [map concat length]. rewrite length_app, length_leBytes, IH. lia.
Qed.

Lemma chunks_concat k l rest :
  chunks k (length l) (concat (map (leBytes k) l) ++ rest) = map (leBytes k) l.
Proof.
  induction l as [|z l IH]; [reflexivity|].
  cbn [map concat length chunks]. rewrite <- app_assoc.
  rewrite firstn_app, skipn_app, length_leBytes, Nat.sub_diag.
  rewrite firstn_all2 by (rewrite length_leBytes; lia).
  rewrite skipn_all2 by (rewrite length_leBytes; lia).
  rewrite firstn_O, skipn_O, app_nil_r. cbn [app]. now rewrite IH.
Qed.

(** [binary.Read] reads back what [binary.Write] has written, each
    element as the decoder stores it. *)
Lemma binaryRead_binaryWrite t l rest sh :
  Forall (inRange t) l ->
  binaryRead t (length l)
    (mkReader (concat (map (encodeElem t) l) ++ rest) sh)
  = (Ret (map (stored t) l, None), mkReader rest sh).
Proof.
  intros Hl. unfold binaryRead, bind.
  change (map (encodeElem t) l) with (map (leBytes (elemSize t)) l).
  pose proof (length_concat_leBytes (elemSize t) l) as Hlen.
  rewrite ReadFull_enough by (rewrite length_make, length_app; lia).
  rewrite length_make, <- Hlen.
  rewrite firstn_app, skipn_app, Nat.sub_diag, firstn_all, skipn_all.
  rewrite firstn_O, skipn_O, app_nil_r. cbn [app]. unfold ret.
  rewrite <- (app_nil_r (concat _)), chunks_concat, map_map.
  do 2 f_equal. f_equal. clear Hlen.
  induction Hl as [|z l Hz Hl IH]; [reflexivity|].
  cbn [map]. fold (encodeElem t z).
  now rewrite (decodeElem_encodeElem t z Hz), IH.
Qed.

Lemma typedArrayElem_sliceTag t : typedArrayElem (sliceTag t) = Some t.
Proof. destruct t; reflexivity. Qed.

(** What [writeTypedArray] appends, and that [readValue] reads it back. *)
Lemma writeTypedArray_readValue t l :
  len l <= MaxUint32 -> Forall (inRange t) l ->
  exists out,
    (forall w, writeTypedArray (len l) t l (sliceTag t) w = (Ret tt, w ++ out))
    /\ (forall fuel atoms rest sh,
          readValue (S fuel) atoms (mkReader (out ++ rest) sh)
          = (Ret (VSlice t (map (stored t) l)), mkReader rest sh)).
Proof.
  intros Hn Hl.
  destruct (readUint32_writeUvarint (len l)) as (bs & Hw & Hr);
    [unfold len in *; lia|].
  exists ([tagTypedArray; sliceTag t] ++ bs ++ [x00; tagArrayBuffer] ++ bs
          ++ concat (map (encodeElem t) l)).
  split.
  - intros w. unfold writeTypedArray, bind, binaryWrite.
    unfold write at 1. rewrite Hw.
    change (writeUvarint 0) with (write [x00]). unfold write at 1.
    unfold write at 1. rewrite Hw. unfold bind, write. cbn [panicIf]. unfold ret.
    f_equal. rewrite <- !app_assoc. reflexivity.
  - intros fuel atoms rest sh. cbn [readValue app].
    unfold bind at 1. rewrite readByte_cons.
    change (Byte.eqb tagTypedArray tagNull) with false.
    change (Byte.eqb tagTypedArray tagUndefined) with false.
    change (Byte.eqb tagTypedArray tagFalse) with false.
    change (Byte.eqb tagTypedArray tagTrue) with false.
    change (Byte.eqb tagTypedArray tagInt32) with false.
    change (Byte.eqb tagTypedArray tagFloat64) with false.
    change (Byte.eqb tagTypedArray tagString) with false.
    change (Byte.eqb tagTypedArray tagObject) with false.
    change (Byte.eqb tagTypedArray tagArray) with false.
    change (Byte.eqb tagTypedArray tagArrayBuffer) with false.
    change (Byte.eqb tagTypedArray tagTypedArray) with true.
    cbv iota.
    unfold bind at 1. rewrite readByte_cons.
    rewrite <- !app_assoc.
    unfold bind at 1. rewrite Hr. cbn [app].
    unfold bind at 1. rewrite readUint32_zero.
    unfold bind at 1. rewrite readByte_cons.
    change (negb (Byte.eqb tagArrayBuffer tagArrayBuffer)) with false.
    cbv iota. rewrite <- !app_assoc. unfold bind at 1. rewrite Hr.
    rewrite Z.eqb_refl. cbn [negb]. rewrite typedArrayElem_sliceTag.
    unfold len. rewrite Nat2Z.id.
    unfold bind at 1. rewrite (binaryRead_binaryWrite t l rest sh Hl).
    reflexivity.
Qed.

(** C5, as the code has it.  For nil, [Undefined], [true], [false] and
    every numeric slice (a [[]float32] when it holds no signalling NaN),
    [WriteValue] succeeds and [ReadValue] on the bytes it wrote returns the
    value again, having read all of them.  A [[]float32] in general comes
    back with every element taken through [float64]: a signalling NaN
    comes back quiet. *)
Theorem round_trip :
  (forall v,
     roundTrips v ->
     exists bs,
       WriteValue [] v = (Returns tt None, bs)
       /\ ReadValue (NewReader bs) = (Returns v None, NewReader []))
  /\ (forall l,
        len l <= MaxUint32 -> Forall (inRange Float32) l ->
        exists bs,
          WriteValue [] (VSlice Float32 l) = (Returns tt None, bs)
          /\ ReadValue (NewReader bs)
             = (Returns (VSlice Float32 (map viaFloat64 l)) None, NewReader [])).
Proof.
  assert (Hslice : forall t l,
             len l <= MaxUint32 -> Forall (inRange t) l ->
             exists bs,
               WriteValue [] (VSlice t l) = (Returns tt None, bs)
               /\ ReadValue (NewReader bs)
                  = (Returns (VSlice t (map (stored t) l)) None, NewReader [])).
  { intros t l Hn Hl.
    destruct (writeTypedArray_readValue t l Hn Hl) as (out & Hw & Hr).
    exists (bcVersion :: x00 :: out). split.
    - unfold WriteValue, writeValue, bind at 1, write at 1, bind at 1.
      change (writeUvarint (len [])) with (write [x00]). unfold write at 1.
      rewrite Hw. reflexivity.
    - unfold ReadValue, NewReader, bind. rewrite readHeader_empty.
      cbn [unread length].
      rewrite <- (app_nil_r out) at 2. rewrite Hr. reflexivity. }
  split.
  - intros v.
    destruct v as [| |b|z|z|z|s|m|l|t l|bs|bs|t x|t]; cbn [roundTrips];
      try contradiction; intros Hv.
    + exists (bytesOf [12; 0; 1]). split; reflexivity.
    + exists (bytesOf [12; 0; 2]). split; reflexivity.
    + destruct b.
      * exists (bytesOf [12; 0; 4]). split; reflexivity.
      * exists (bytesOf [12; 0; 3]). split; reflexivity.
    + destruct Hv as (Hn & Hl & Hq).
      destruct (Hslice t l Hn Hl) as (bs & Hw & Hr).
      exists bs. split; [exact Hw|].
      now rewrite (map_stored_same t l Hq) in Hr.
  - intros l Hn Hl. exact (Hslice Float32 l Hn Hl).
Qed.

Lemma round_trip_witness :
  (exists bs,
     WriteValue [] (VSlice Int16 [-214; 32767]) = (Returns tt None, bs)
     /\ ReadValue (NewReader bs)
        = (Returns (VSlice Int16 [-214; 32767]) None, NewReader []))
  /\ (exists bs,
        WriteValue [] (VSlice Float32 [1065353216; 2139095041])
        = (Returns tt None, bs)
        /\ ReadValue (NewReader bs)
           = (Returns (VSlice Float32 [1065353216; 2143289345]) None,
              NewReader [])).
Proof.
  split.
  - apply (proj1 round_trip (VSlice Int16 [-214; 32767])).
    split; [vm_compute; discriminate|].
    split; [repeat constructor; vm_compute; discriminate | discriminate].
  - apply (proj2 round_trip [1065353216; 2139095041]).
    + vm_compute; discriminate.
    + repeat constructor; vm_compute; discriminate.
Defined.

(** An [ArrayBuffer] is written, but it comes back as a plain byte
    slice, a value of another type; so does a [Uint8ClampedArray], and a
    nil slice comes back as an empty one. *)
Lemma array_buffer_comes_back_as_slice :
  (exists bs,
     WriteValue [] (VArrayBuffer [42]) = (Returns tt None, bs)
     /\ ReadValue (NewReader bs)
        = (Returns (VSlice Uint8 [42]) None, NewReader []))
  /\ VSlice Uint8 [42] <> VArrayBuffer [42]
  /\ (exists bs,
        WriteValue [] (VUint8ClampedArray [42]) = (Returns tt None, bs)
        /\ ReadValue (NewReader bs)
           = (Returns (VSlice Uint8 [42]) None, NewReader []))
  /\ (exists bs,
        WriteValue [] (VZero (TSlice Uint8)) = (Returns tt None, bs)
        /\ ReadValue (NewReader bs)
           = (Returns (VSlice Uint8 []) None, NewReader [])).
Proof.
  split; [|split; [|split]].
  - exists (bytesOf [12; 0; 15; 1; 42]). split; vm_compute; reflexivity.
  - discriminate.
  - exists (bytesOf [12; 0; 14; 0; 1; 0; 15; 1; 42]).
    split; vm_compute; reflexivity.
  - exists (bytesOf [12; 0; 14; 2; 0; 0; 15; 0]).
    split; vm_compute; reflexivity.
Qed.

(** ** The tests of the package *)

(** [TestReadValue]. *)
Example test_ReadValue :
  tryReadValue [12; 0; 1] = Returns VNil None
  /\ tryReadValue [12; 0; 2] = Returns VUndefined None
  /\ tryReadValue [12; 0; 3] = Returns (VBool false) None
  /\ tryReadValue [12; 0; 4] = Returns (VBool true) None
  /\ tryReadValue [12; 0; 5; 84] = Returns (VInt32 42) None
  /\ tryReadValue [12; 0; 6; 61; 10; 215; 163; 112; 189; 42; 64]
     = Returns (VFloat64 0x402abd70a3d70a3d) None
  /\ tryReadValue [12; 0; 6; 0; 0; 0; 0; 0; 0; 0; 0] = Returns (VFloat64 0) None
  /\ tryReadValue [12; 0; 6; 0; 0; 0; 0; 0; 0; 0; 128]
     = Returns (VFloat64 0x8000000000000000) None
  /\ tryReadValue [12; 0; 7; 4; 111; 107] = Returns (VString "ok") None
  /\ tryReadValue [12; 0; 7; 5; 61; 216; 45; 222]
     = Returns (VString (string_of_list_byte [xf0; x9f; x98; xad])) None
  /\ tryReadValue [12; 0; 9; 0] = Returns (VArray []) None
  /\ tryReadValue [12; 0; 9; 1; 1] = Returns (VArray [VNil]) None
  /\ tryReadValue [12; 0; 15; 0] = Returns (VSlice Uint8 []) None
  /\ tryReadValue [12; 0; 15; 1; 42] = Returns (VSlice Uint8 [42]) None
  /\ tryReadValue [12; 0; 14; 2; 1; 0; 15; 1; 42]
     = Returns (VSlice Uint8 [42]) None
  /\ tryReadValue [12; 1; 2; 107; 8; 1; 2; 1]
     = Returns (VMap {["k"%string := VNil]}) None
  /\ tryReadValue [12; 0; 8; 1; 85; 1]
     = Returns (VMap {["42"%string := VNil]}) None
  /\ tryReadValue [12; 1; 6; 45; 52; 50; 8; 1; 2; 1]
     = Returns (VMap {["-42"%string := VNil]}) None.
Proof. repeat split; vm_compute; reflexivity. Qed.

(** [TestReadObject]; "null is coerced to 0". *)
Example test_ReadObject :
  tryReadObject [] [12; 0; 8; 0] = (Returns tt None, [])
  /\ tryReadObject [] [12; 1; 2; 107; 8; 1; 2; 1] = (Returns tt None, [])
  /\ tryReadObject [mkField "k" TInt (VInt 42)] [12; 1; 2; 107; 8; 1; 2; 1]
     = (Returns tt None, [mkField "k" TInt (VInt 0)])
  /\ tryReadObject [mkField "k" (TPtr TInt) (VPtr TInt (VInt 42))]
       [12; 1; 2; 107; 8; 1; 2; 1]
     = (Returns tt None, [mkField "k" (TPtr TInt) (VZero (TPtr TInt))]).
Proof. repeat split; vm_compute; reflexivity. Qed.

(** [TestWriteValue]. *)
Example test_WriteValue :
  tryWriteValue VNil = (Returns tt None, [bcVersion; x00; tagNull])
  /\ tryWriteValue VUndefined = (Returns tt None, [bcVersion; x00; tagUndefined])
  /\ tryWriteValue (VBool true) = (Returns tt None, [bcVersion; x00; tagTrue])
  /\ tryWriteValue (VBool false) = (Returns tt None, [bcVersion; x00; tagFalse]).
Proof. repeat split; reflexivity. Qed.

(** * Further properties of the code *)

(** ** Counts and lengths on the wire *)

Lemma uint64_nonneg z : 0 <= uint64 z.
Proof. unfold uint64. apply Z.mod_pos_bound. lia. Qed.

Lemma readUvarintLoop_nonneg todo : forall i x s r v e r',
  0 <= x -> readUvarintLoop todo i x s r = (Ret (v, e), r') -> 0 <= v.
Proof.
  induction todo as [|todo IH]; intros i x s r v e r' Hx E;
    cbn [readUvarintLoop] in E.
  - inversion E; subst. exact Hx.
  - unfold bind in E. destruct (ReadByte r) as [[[b err]|p|] r1];
      try discriminate.
    destruct err as [e0|].
    + destruct (_ && _); inversion E; subst; exact Hx.
    + destruct (byteVal b <? 128).
      * destruct (_ && _); inversion E; subst; [exact Hx|].
        apply Z.lor_nonneg. split; [exact Hx | apply uint64_nonneg].
      * apply (IH _ _ _ _ _ _ _ ltac:(apply Z.lor_nonneg; split;
                                        [exact Hx | apply uint64_nonneg]) E).
Qed.

Lemma readUint32_bounds (r r' : Reader) (v : Z) :
  readUint32 r = (Ret v, r') -> 0 <= v <= MaxUint32.
Proof.
  unfold readUint32, bind, ReadUvarint. intros E.
  destruct (readUvarintLoop 10 0 0 0 r) as [[[x err]|p|] r1] eqn:E1;
    try discriminate.
  pose proof (readUvarintLoop_nonneg 10 0 0 0 r x err r1 (Z.le_refl 0) E1)
    as Hx.
  destruct err; [discriminate|].
  destruct (MaxUint32 <? x) eqn:Em; [discriminate|].
  destruct (MaxInt <? x); [discriminate|].
  inversion E; subst. apply Z.ltb_ge in Em. lia.
Qed.

(** X1.  Every count that [readUint32] returns, on any input, is an
    unsigned 32-bit number. *)
Theorem readUint32_range (r r' : Reader) (v : Z) :
  readUint32 r = (Ret v, r') -> 0 <= v <= MaxUint32.
Proof. apply readUint32_bounds. Qed.

Lemma readUint32_range_witness :
  readUint32 (NewReader (bytesOf [172; 2])) = (Ret 300, NewReader [])
  /\ 0 <= 300 <= MaxUint32.
Proof.
  split; [reflexivity|].
  exact (readUint32_range (NewReader (bytesOf [172; 2])) (NewReader []) 300
           eq_refl).
Defined.

Lemma PutUvarint_more cap : forall cap' x bs,
  PutUvarint cap x = Some bs -> (cap <= cap')%nat ->
  PutUvarint cap' x = Some bs.
Proof.
  induction cap as [|cap IH]; intros cap' x bs HP Hle; [discriminate|].
  destruct cap' as [|cap']; [lia|]. cbn [PutUvarint] in *.
  destruct (128 <=? x); [|exact HP].
  destruct (PutUvarint cap (Z.shiftr x 7)) as [bs'|] eqn:E; [|discriminate].
  now rewrite (IH cap' _ _ E ltac:(lia)).
Qed.

Lemma PutUvarint_nonempty cap x bs : PutUvarint cap x = Some bs -> bs <> [].
Proof.
  destruct cap as [|cap]; [discriminate|]. cbn [PutUvarint].
  destruct (128 <=? x).
  - destruct (PutUvarint cap (Z.shiftr x 7)); [|discriminate].
    now inversion 1.
  - now inversion 1.
Qed.

(** X2.  A count of at most 32 bits that [writeUvarint] writes takes one to
    five bytes, and [readUint32] reads it back from them, leaving what
    follows. *)
Theorem uvarint_round_trip (n : Z) :
  0 <= n <= MaxUint32 ->
  exists bs,
    (forall w, writeUvarint n w = (Ret tt, w ++ bs))
    /\ (1 <= length bs <= 5)%nat
    /\ (forall rest sh,
          readUint32 (mkReader (bs ++ rest) sh) = (Ret n, mkReader rest sh)).
Proof.
  intros Hn. unfold MaxUint32 in Hn.
  destruct (PutUvarint_some 4 n) as (bs & HP & Hl).
  { change (2 ^ (7 * Z.of_nat 5)) with 34359738368. lia. }
  pose proof (PutUvarint_more _ 8 _ _ HP ltac:(lia)) as HP8.
  pose proof (PutUvarint_nonempty _ _ _ HP) as Hne.
  exists bs. split; [|split].
  - intros w. unfold writeUvarint.
    rewrite uint64_small by (change (2 ^ 64) with 18446744073709551616; lia).
    now rewrite HP8.
  - destruct bs; [congruence | cbn [length] in *; lia].
  - intros rest sh. unfold readUint32, bind, ReadUvarint.
    rewrite (readUvarintLoop_PutUvarint 8 n bs 10 0 0 0 rest sh HP8);
      try lia.
    rewrite Z.lor_0_l, Z.shiftl_0_r.
    replace (MaxUint32 <? n) with false
      by (symmetry; apply Z.ltb_ge; unfold MaxUint32; lia).
    replace (MaxInt <? n) with false
      by (symmetry; apply Z.ltb_ge; unfold MaxInt; lia).
    reflexivity.
Qed.

Lemma uvarint_round_trip_witness :
  exists bs,
    (forall w, writeUvarint 300 w = (Ret tt, w ++ bs))
    /\ (1 <= length bs <= 5)%nat
    /\ (forall rest sh,
          readUint32 (mkReader (bs ++ rest) sh) = (Ret 300, mkReader rest sh)).
Proof. apply (uvarint_round_trip 300). vm_compute. split; discriminate. Defined.

(** X3.  A count above 32 bits can be written (below 2^56), but
    [readUint32] refuses it with the out-of-range panic. *)
Theorem readUint32_rejects_large (n : Z) :
  MaxUint32 < n < 2 ^ 56 ->
  exists bs,
    (forall w, writeUvarint n w = (Ret tt, w ++ bs))
    /\ (forall rest sh,
          readUint32 (mkReader (bs ++ rest) sh)
          = (Panic (PMsg (Uint32OutOfRange n)), mkReader rest sh)).
Proof.
  intros Hn. unfold MaxUint32 in Hn.
  change (2 ^ 56) with 72057594037927936 in Hn.
  destruct (PutUvarint_some 7 n) as (bs & HP & Hl).
  { change (2 ^ (7 * Z.of_nat 8)) with 72057594037927936. lia. }
  exists bs. split.
  - intros w. unfold writeUvarint.
    rewrite uint64_small by (change (2 ^ 64) with 18446744073709551616; lia).
    now rewrite HP.
  - intros rest sh. unfold readUint32, bind, ReadUvarint.
    rewrite (readUvarintLoop_PutUvarint 8 n bs 10 0 0 0 rest sh HP);
      try lia.
    rewrite Z.lor_0_l, Z.shiftl_0_r.
    replace (MaxUint32 <? n) with true
      by (symmetry; apply Z.ltb_lt; unfold MaxUint32; lia).
    reflexivity.
Qed.

Lemma readUint32_rejects_large_witness :
  exists bs,
    (forall w, writeUvarint 4294967296 w = (Ret tt, w ++ bs))
    /\ (forall rest sh,
          readUint32 (mkReader (bs ++ rest) sh)
          = (Panic (PMsg (Uint32OutOfRange 4294967296)), mkReader rest sh)).
Proof.
  apply (readUint32_rejects_large 4294967296). vm_compute.
  split; reflexivity.
Defined.

Lemma PutUvarint_none cap : forall x,
  2 ^ (7 * Z.of_nat cap) <= x -> PutUvarint cap x = None.
Proof.
  induction cap as [|cap IH]; intros x Hx; [reflexivity|].
  replace (7 * Z.of_nat (S cap)) with (7 + 7 * Z.of_nat cap) in Hx by lia.
  rewrite Z.pow_add_r in Hx by lia. change (2 ^ 7) with 128 in Hx.
  assert (Hp : 0 < 2 ^ (7 * Z.of_nat cap)) by (apply Z.pow_pos_nonneg; lia).
  cbn [PutUvarint].
  replace (128 <=? x) with true by (symmetry; apply Z.leb_le; nia).
  rewrite IH; [reflexivity|].
  rewrite Z.shiftr_div_pow2 by lia. change (2 ^ 7) with 128.
  apply Z.div_le_lower_bound; lia.
Qed.

(** X4.  The buffer of [writeUvarint] has eight bytes: a number of 2^56 or
    more does not fit, and the call panics with an index out of range
    before it writes anything. *)
Theorem writeUvarint_overflows (v : Z) (w : list byte) :
  2 ^ 56 <= v < 2 ^ 64 ->
  writeUvarint v w = (Panic (PErr IndexOutOfRange), w).
Proof.
  intros Hv. unfold writeUvarint. rewrite uint64_small by lia.
  now rewrite (PutUvarint_none 8 v) by exact (proj1 Hv).
Qed.

Lemma writeUvarint_overflows_witness :
  writeUvarint (2 ^ 56) [] = (Panic (PErr IndexOutOfRange), []).
Proof.
  apply (writeUvarint_overflows (2 ^ 56) []). vm_compute.
  split; [discriminate | reflexivity].
Defined.

(** Evaluates the comparisons of a known tag in the goal. *)
Ltac eval_tags :=
  repeat match goal with
         | |- context [Byte.eqb ?a ?b] =>
             let v := eval vm_compute in (Byte.eqb a b) in
             lazymatch v with
             | true => change (Byte.eqb a b) with true
             | false => change (Byte.eqb a b) with false
             end
         end;
  cbn [negb]; cbv iota.

(** ** Raw bytes and strings *)

Lemma readBytes_enough n l sh :
  (Z.to_nat n <= length l)%nat ->
  readBytes n (mkReader l sh)
  = (Ret (firstn (Z.to_nat n) l), mkReader (skipn (Z.to_nat n) l) sh).
Proof.
  intros Hle. unfold readBytes, bind, Read. cbn [unread short].
  rewrite length_make. destruct l as [|a l].
  - cbn [length] in Hle. assert (Z.to_nat n = O) as -> by lia.
    replace (0 <? n) with false by (symmetry; apply Z.ltb_ge; lia).
    cbn. now rewrite orb_false_r.
  - rewrite Nat.min_l by exact Hle. rewrite Nat.ltb_irrefl, orb_false_r.
    unfold make. rewrite drop_replicate, Nat.sub_diag. cbn [replicate].
    now rewrite app_nil_r.
Qed.

Lemma readBytes_exact (data rest : list byte) (sh : bool) :
  readBytes (len data) (mkReader (data ++ rest) sh)
  = (Ret data, mkReader rest sh).
Proof.
  unfold len. rewrite readBytes_enough by (rewrite length_app; lia).
  rewrite Nat2Z.id.
  rewrite firstn_app, skipn_app, Nat.sub_diag, firstn_all, skipn_all.
  now rewrite firstn_O, skipn_O, app_nil_r.
Qed.

(** X5.  [readBytes] returns the next [n] bytes when the reader has them,
    and leaves the rest.  With nothing left it panics with [io.EOF] when
    [n] is positive, and returns the empty slice when [n] is zero. *)
Theorem readBytes_available (n : Z) (data rest : list byte) (sh : bool) :
  len data = n ->
  readBytes n (mkReader (data ++ rest) sh) = (Ret data, mkReader rest sh)
  /\ (0 < n -> readBytes n (mkReader [] sh)
               = (Panic (PErr EOF), mkReader [] true))
  /\ (n = 0 -> readBytes n (mkReader [] sh) = (Ret [], mkReader [] sh)).
Proof.
  intros Hn. unfold len in Hn. split; [|split].
  - rewrite readBytes_enough by (rewrite length_app; lia).
    replace (Z.to_nat n) with (length data) by lia.
    rewrite firstn_app, skipn_app, Nat.sub_diag, firstn_all, skipn_all.
    now rewrite firstn_O, skipn_O, app_nil_r.
  - intros Hpos. unfold readBytes, bind, Read. cbn [unread short].
    rewrite length_make.
    replace (0 <? n) with true by (symmetry; apply Z.ltb_lt; lia).
    replace (Nat.eqb (Z.to_nat n) 0) with false
      by (symmetry; apply Nat.eqb_neq; lia).
    cbn [negb]. now rewrite orb_true_r.
  - intros ->. now rewrite readBytes_enough by (simpl; lia).
Qed.

Lemma readBytes_available_witness :
  readBytes 2 (NewReader (bytesOf [7; 8; 9]))
  = (Ret (bytesOf [7; 8]), NewReader (bytesOf [9]))
  /\ readBytes 2 (NewReader []) = (Panic (PErr EOF), mkReader [] true).
Proof.
  destruct (readBytes_available 2 (bytesOf [7; 8]) (bytesOf [9]) false
              eq_refl) as (H1 & H2 & _).
  split; [exact H1 | apply H2; reflexivity].
Defined.

Lemma land_1_even k : (Z.land (2 * k) 1 =? 1) = false.
Proof. rewrite land_1_odd, Z.odd_mul. reflexivity. Qed.

(** X6.  A narrow string: the length varint holds twice the byte count,
    and the bytes that follow are the string, byte for byte. *)
Theorem readString_narrow (data rest : list byte) (sh : bool) :
  2 * len data <= MaxUint32 ->
  exists bs,
    (forall w, writeUvarint (2 * len data) w = (Ret tt, w ++ bs))
    /\ readString (mkReader (bs ++ data ++ rest) sh)
       = (Ret (string_of_list_byte data), mkReader rest sh).
Proof.
  intros Hn. unfold len in *.
  destruct (readUint32_writeUvarint (2 * Z.of_nat (length data)))
    as (bs & Hw & Hr); [lia|].
  exists bs. split; [exact Hw|].
  unfold readString, bind at 1. rewrite Hr, land_1_even.
  rewrite shiftr_1_half, Z.mul_comm, Z.div_mul by lia.
  unfold bind.
  change (Z.of_nat (length data)) with (len data).
  rewrite readBytes_exact. reflexivity.
Qed.

Lemma readString_narrow_witness :
  exists bs,
    (forall w, writeUvarint (2 * len (bytesOf [111; 107])) w
               = (Ret tt, w ++ bs))
    /\ readString (mkReader (bs ++ bytesOf [111; 107] ++ bytesOf [1]) false)
       = (Ret "ok"%string, mkReader (bytesOf [1]) false).
Proof.
  apply (readString_narrow (bytesOf [111; 107]) (bytesOf [1]) false).
  vm_compute. discriminate.
Defined.

(** X7.  A wide string: the length varint holds twice the number of
    UTF-16 code units plus one; the units follow, two little-endian bytes
    each, and the string is their decoding, re-encoded as UTF-8. *)
Theorem readString_wide (units : list Z) (rest : list byte) (sh : bool) :
  2 * len units + 1 <= MaxUint32 ->
  Forall (inRange Uint16) units ->
  exists bs,
    (forall w, writeUvarint (2 * len units + 1) w = (Ret tt, w ++ bs))
    /\ readString
         (mkReader (bs ++ concat (map (encodeElem Uint16) units) ++ rest) sh)
       = (Ret (stringOfRunes (utf16Decode units)), mkReader rest sh).
Proof.
  intros Hn Hu. unfold len in *.
  destruct (readUint32_writeUvarint (2 * Z.of_nat (length units) + 1))
    as (bs & Hw & Hr); [lia|].
  exists bs. split; [exact Hw|].
  unfold readString, bind at 1. rewrite Hr, land_1_odd.
  rewrite Z.add_comm, Z.odd_add_mul_2. cbn [Z.odd].
  rewrite shiftr_1_half.
  replace ((1 + 2 * Z.of_nat (length units)) / 2) with (Z.of_nat (length units))
    by (apply (Z.div_unique _ 2 _ 1); lia).
  rewrite Nat2Z.id. unfold bind at 1.
  rewrite (binaryRead_binaryWrite Uint16 units rest sh Hu).
  rewrite (map_stored_same Uint16 units) by discriminate. reflexivity.
Qed.

Lemma readString_wide_witness :
  exists bs,
    (forall w, writeUvarint (2 * len [0xd83d; 0xde2d] + 1) w
               = (Ret tt, w ++ bs))
    /\ readString
         (mkReader (bs ++ concat (map (encodeElem Uint16) [0xd83d; 0xde2d])
                       ++ []) false)
       = (Ret (stringOfRunes (utf16Decode [0xd83d; 0xde2d])), mkReader [] false).
Proof.
  apply (readString_wide [0xd83d; 0xde2d] [] false).
  - vm_compute. discriminate.
  - repeat constructor; vm_compute; discriminate.
Defined.

(** ** Numbers *)

(** X8.  A Float64 record is its eight payload bytes, read as a
    little-endian bit pattern: every pattern comes back as it is, the sign
    of zero and the payload of a NaN included. *)
Theorem float64_verbatim (fuel : nat) (atoms : list string) (bits : Z)
    (rest : list byte) (sh : bool) :
  0 <= bits < 2 ^ 64 ->
  readValue (S fuel) atoms (mkReader (tagFloat64 :: leBytes 8 bits ++ rest) sh)
  = (Ret (VFloat64 bits), mkReader rest sh).
Proof.
  intros Hb. cbn [readValue]. unfold bind at 1. rewrite readByte_cons.
  eval_tags. unfold bind at 1.
  assert (Hr : Forall (inRange Float64) [bits])
    by (constructor; [exact Hb | constructor]).
  pose proof (binaryRead_binaryWrite Float64 [bits] rest sh Hr) as E.
  cbn [map concat length] in E. unfold encodeElem in E.
  cbn [elemSize] in E. rewrite app_nil_r in E. rewrite E. reflexivity.
Qed.

Lemma float64_verbatim_witness :
  readValue 1 [] (mkReader (tagFloat64 :: leBytes 8 (2 ^ 63) ++ []) false)
  = (Ret (VFloat64 (2 ^ 63)), mkReader [] false).
Proof.
  apply (float64_verbatim 0 [] (2 ^ 63) [] false). vm_compute.
  split; [discriminate | reflexivity].
Defined.

Lemma ReadUvarint_writeUvarint n :
  0 <= n < 2 ^ 56 ->
  exists bs,
    (forall w, writeUvarint n w = (Ret tt, w ++ bs))
    /\ (forall rest sh,
          ReadUvarint (mkReader (bs ++ rest) sh)
          = (Ret (n, None), mkReader rest sh)).
Proof.
  intros Hn. change (2 ^ 56) with 72057594037927936 in Hn.
  destruct (PutUvarint_some 7 n) as (bs & HP & Hl).
  { change (2 ^ (7 * Z.of_nat 8)) with 72057594037927936. lia. }
  exists bs. split.
  - intros w. unfold writeUvarint.
    rewrite uint64_small by (change (2 ^ 64) with 18446744073709551616; lia).
    now rewrite HP.
  - intros rest sh. unfold ReadUvarint.
    rewrite (readUvarintLoop_PutUvarint 8 n bs 10 0 0 0 rest sh HP);
      try lia.
    now rewrite Z.lor_0_l, Z.shiftl_0_r.
Qed.

Lemma unzigzag z :
  - 2 ^ 54 <= z < 2 ^ 54 ->
  (if negb (Z.land (zigzag z) 1 =? 0)
   then Z.lnot (int64 (Z.shiftr (zigzag z) 1))
   else int64 (Z.shiftr (zigzag z) 1)) = z.
Proof.
  intros Hz. change (2 ^ 54) with 18014398509481984 in Hz.
  change 1 with (Z.ones 1) at 1. rewrite Z.land_ones by lia.
  change (2 ^ 1) with 2. rewrite shiftr_1_half.
  unfold zigzag, int64. change (2 ^ 64) with 18446744073709551616.
  change (2 ^ 63) with 9223372036854775808.
  destruct (z <? 0) eqn:Ez; [apply Z.ltb_lt in Ez | apply Z.ltb_ge in Ez].
  - replace (-2 * z - 1) with (1 + (- z - 1) * 2) by lia.
    rewrite Z.mod_add, Z.div_add by lia.
    change (1 mod 2) with 1. change (1 / 2) with 0. cbn [Z.eqb negb].
    rewrite Z.mod_small by lia.
    replace (0 + (- z - 1) <? 9223372036854775808) with true
      by (symmetry; apply Z.ltb_lt; lia).
    unfold Z.lnot. lia.
  - rewrite (Z.mul_comm 2 z), Z.mod_mul, Z.div_mul by lia.
    cbn [Z.eqb negb]. rewrite Z.mod_small by lia.
    replace (z <? 9223372036854775808) with true
      by (symmetry; apply Z.ltb_lt; lia).
    reflexivity.
Qed.

(** X9.  An Int32 record is the varint of the zig-zag code of the number.
    Every [int32] is decoded from it; a number outside the [int32] range is
    refused with the out-of-range panic. *)
Theorem int32_zigzag (fuel : nat) (atoms : list string) (z : Z)
    (rest : list byte) (sh : bool) :
  - 2 ^ 54 <= z < 2 ^ 54 ->
  exists bs,
    (forall w, writeUvarint (zigzag z) w = (Ret tt, w ++ bs))
    /\ readValue (S fuel) atoms (mkReader (tagInt32 :: bs ++ rest) sh)
       = (if (z <? MinInt32) || (MaxInt32 <? z)
          then Panic (PMsg (Int32OutOfRange z))
          else Ret (VInt32 z),
          mkReader rest sh).
Proof.
  intros Hz.
  destruct (ReadUvarint_writeUvarint (zigzag z)) as (bs & Hw & Hr).
  { change (2 ^ 54) with 18014398509481984 in Hz.
    change (2 ^ 56) with 72057594037927936.
    unfold zigzag. destruct (z <? 0) eqn:Ez;
      [apply Z.ltb_lt in Ez | apply Z.ltb_ge in Ez]; lia. }
  exists bs. split; [exact Hw|].
  cbn [readValue]. unfold bind at 1. rewrite readByte_cons. eval_tags.
  unfold bind at 1, ReadVarint, bind at 1. rewrite Hr.
  unfold ret at 1. rewrite (unzigzag z Hz).
  destruct ((z <? MinInt32) || (MaxInt32 <? z)); reflexivity.
Qed.

Lemma int32_zigzag_witness :
  exists bs,
    (forall w, writeUvarint (zigzag (-42)) w = (Ret tt, w ++ bs))
    /\ readValue 1 [] (mkReader (tagInt32 :: bs ++ []) false)
       = (Ret (VInt32 (-42)), mkReader [] false).
Proof.
  apply (int32_zigzag 0 [] (-42) [] false). vm_compute.
  split; [discriminate | reflexivity].
Defined.

(** ** Tags and typed arrays *)

(** X10.  A tag byte other than the eleven that [readValue] decodes (big
    integers, function bytecode, dates and so on, and every unassigned
    byte) is refused by name with the unsupported-tag panic, and nothing
    after the tag is read. *)
Theorem unsupported_tag (fuel : nat) (atoms : list string) (tag : byte)
    (l : list byte) (sh : bool) :
  supportedTag tag = false ->
  readValue (S fuel) atoms (mkReader (tag :: l) sh)
  = (Panic (PMsg (UnsupportedTag (tagName tag))), mkReader l sh).
Proof.
  unfold supportedTag. intros H.
  repeat (apply orb_false_elim in H; destruct H as [H ?]).
  cbn [readValue]. unfold bind at 1. rewrite readByte_cons.
  repeat match goal with
         | E : Byte.eqb tag _ = false |- _ => rewrite E; clear E
         end.
  reflexivity.
Qed.

Lemma unsupported_tag_witness :
  readValue 1 [] (mkReader (bytesOf [18; 0]) false)
  = (Panic (PMsg (UnsupportedTag "date")), mkReader (bytesOf [0]) false)
  /\ readValue 1 [] (mkReader (bytesOf [77]) false)
     = (Panic (PMsg (UnsupportedTag "unknown tag 77")), mkReader [] false).
Proof.
  split.
  - exact (unsupported_tag 0 [] tagDate (bytesOf [0]) false eq_refl).
  - exact (unsupported_tag 0 [] x4d [] false eq_refl).
Defined.

(** X11.  In a typed-array record the nested record must carry the
    array-buffer tag, else [readValue] panics with the structural error.
    The element kind is looked at last: with the nested tag and the counts
    in order, a kind above 10 is refused with the bad-tag panic before
    any payload byte is read. *)
Theorem typed_array_structure (fuel : nat) (atoms : list string)
    (kind tag' : byte) (s : list byte) (sh : bool) (n off : Z)
    (r2 r3 r4 : Reader) :
  readUint32 (mkReader s sh) = (Ret n, r2) ->
  readUint32 r2 = (Ret off, r3) ->
  readByte r3 = (Ret tag', r4) ->
  (tag' <> tagArrayBuffer ->
     readValue (S fuel) atoms (mkReader (tagTypedArray :: kind :: s) sh)
     = (Panic (PMsg StructuralError), r4))
  /\ (tag' = tagArrayBuffer ->
      forall r5, readUint32 r4 = (Ret n, r5) ->
      typedArrayElem kind = None ->
      readValue (S fuel) atoms (mkReader (tagTypedArray :: kind :: s) sh)
      = (Panic (PMsg (BadTypedArrayTag kind)), r5)).
Proof.
  intros Hn Hoff Htag.
  assert (E : forall k : byte -> Run Reader value,
             readValue (S fuel) atoms (mkReader (tagTypedArray :: kind :: s) sh)
             = (let* t := readByte in k t) r3 ->
             readValue (S fuel) atoms (mkReader (tagTypedArray :: kind :: s) sh)
             = k tag' r4).
  { intros k ->. unfold bind. now rewrite Htag. }
  split.
  - intros Hne. erewrite E.
    2:{ cbn [readValue]. unfold bind at 1. rewrite readByte_cons. eval_tags.
        unfold bind at 1. rewrite readByte_cons.
        unfold bind at 1. rewrite Hn. unfold bind at 1. rewrite Hoff.
        reflexivity. }
    cbv beta.
    replace (Byte.eqb tagArrayBuffer tag') with false
      by (symmetry; apply Byte_eqb_neq; congruence).
    reflexivity.
  - intros -> r5 Hn' Hk. erewrite E.
    2:{ cbn [readValue]. unfold bind at 1. rewrite readByte_cons. eval_tags.
        unfold bind at 1. rewrite readByte_cons.
        unfold bind at 1. rewrite Hn. unfold bind at 1. rewrite Hoff.
        reflexivity. }
    cbv beta. eval_tags. unfold bind at 1. rewrite Hn'.
    rewrite Z.eqb_refl. cbn [negb]. now rewrite Hk.
Qed.

Lemma typed_array_structure_witness :
  readValue 1 [] (NewReader (bytesOf [14; 2; 1; 0; 9; 1; 42]))
  = (Panic (PMsg StructuralError), NewReader (bytesOf [1; 42]))
  /\ readValue 1 [] (NewReader (bytesOf [14; 11; 1; 0; 15; 1; 42]))
     = (Panic (PMsg (BadTypedArrayTag x0b)), NewReader (bytesOf [42])).
Proof.
  split.
  - apply (proj1 (typed_array_structure 0 [] x02 x09
                    (bytesOf [1; 0; 9; 1; 42]) false 1 0
                    (NewReader (bytesOf [0; 9; 1; 42]))
                    (NewReader (bytesOf [9; 1; 42]))
                    (NewReader (bytesOf [1; 42]))
                    eq_refl eq_refl eq_refl)).
    discriminate.
  - apply (proj2 (typed_array_structure 0 [] x0b x0f
                    (bytesOf [1; 0; 15; 1; 42]) false 1 0
                    (NewReader (bytesOf [0; 15; 1; 42]))
                    (NewReader (bytesOf [15; 1; 42]))
                    (NewReader (bytesOf [1; 42]))
                    eq_refl eq_refl eq_refl) eq_refl
                  (NewReader (bytesOf [42])) eq_refl eq_refl).
Defined.

(** X12.  The payloads read by [binary.Read] are all or nothing: a typed
    array whose stream holds fewer bytes than its count times its element
    size, and a Float64 with fewer than eight bytes, make [readValue]
    panic with [io.EOF] or [io.ErrUnexpectedEOF]. *)
Theorem fixed_size_payload_truncated (fuel : nat) (atoms : list string) :
  (forall kind t s sh n off r2 r3 r4 r5,
     readUint32 (mkReader s sh) = (Ret n, r2) ->
     readUint32 r2 = (Ret off, r3) ->
     readByte r3 = (Ret tagArrayBuffer, r4) ->
     readUint32 r4 = (Ret n, r5) ->
     typedArrayElem kind = Some t ->
     (avail r5 < Z.to_nat n * elemSize t)%nat ->
     exists e r',
       readValue (S fuel) atoms (mkReader (tagTypedArray :: kind :: s) sh)
       = (Panic (PErr e), r')
       /\ StreamTruncated e)
  /\ (forall l sh,
        (length l < 8)%nat ->
        exists e r',
          readValue (S fuel) atoms (mkReader (tagFloat64 :: l) sh)
          = (Panic (PErr e), r')
          /\ StreamTruncated e).
Proof.
  split.
  - intros kind t s sh n off r2 r3 r4 r5 Hn Hoff Htag Hn' Hk Hlt.
    destruct (binaryRead_truncated t (Z.to_nat n) r5 Hlt) as (e & r' & Hb & He).
    exists e, r'. split; [|exact He].
    cbn [readValue]. unfold bind at 1. rewrite readByte_cons. eval_tags.
    unfold bind at 1. rewrite readByte_cons.
    unfold bind at 1. rewrite Hn. unfold bind at 1. rewrite Hoff.
    unfold bind at 1. rewrite Htag. eval_tags.
    unfold bind at 1. rewrite Hn'. rewrite Z.eqb_refl. cbn [negb].
    rewrite Hk. unfold bind at 1. rewrite Hb. reflexivity.
  - intros l sh Hlt.
    destruct (binaryRead_truncated Float64 1 (mkReader l sh))
      as (e & r' & Hb & He).
    { unfold avail, avail_reader. cbn [unread elemSize]. lia. }
    exists e, r'. split; [|exact He].
    cbn [readValue]. unfold bind at 1. rewrite readByte_cons. eval_tags.
    unfold bind at 1. rewrite Hb. reflexivity.
Qed.

Lemma fixed_size_payload_truncated_witness :
  (exists e r',
     readValue 1 [] (mkReader (bytesOf [14; 3; 2; 0; 15; 2; 42; 255; 0]) false)
     = (Panic (PErr e), r') /\ StreamTruncated e)
  /\ (exists e r',
        readValue 1 [] (mkReader (bytesOf [6; 0; 0; 0]) false)
        = (Panic (PErr e), r') /\ StreamTruncated e).
Proof.
  split.
  - apply (proj1 (fixed_size_payload_truncated 0 []) x03 Int16
             (bytesOf [2; 0; 15; 2; 42; 255; 0]) false 2 0
             (NewReader (bytesOf [0; 15; 2; 42; 255; 0]))
             (NewReader (bytesOf [15; 2; 42; 255; 0]))
             (NewReader (bytesOf [2; 42; 255; 0]))
             (NewReader (bytesOf [42; 255; 0]))
             eq_refl eq_refl eq_refl eq_refl eq_refl).
    vm_compute. lia.
  - apply (proj2 (fixed_size_payload_truncated 0 []) (bytesOf [0; 0; 0]) false).
    vm_compute. lia.
Defined.

(** ** What the decoder returns *)

Lemma post_ret {St A} (P : A -> Prop) (a : A) : P a -> post (St := St) P (ret a).
Proof. intros Ha s a' s' E. inversion E; subst. exact Ha. Qed.

Lemma post_panic {St A} (P : A -> Prop) p : post P (@panic St A p).
Proof. intros s a s' E. discriminate. Qed.

Lemma post_bind {St A B} (Q : A -> Prop) (P : B -> Prop)
    (m : Run St A) (k : A -> Run St B) :
  post Q m -> (forall a, Q a -> post P (k a)) -> post P (bind m k).
Proof.
  intros Hm Hk s b s' E. unfold bind in E.
  destruct (m s) as [[a|p|] s1] eqn:E1; try discriminate.
  exact (Hk a (Hm _ _ _ E1) _ _ _ E).
Qed.

Lemma post_bind_any {St A B} (P : B -> Prop)
    (m : Run St A) (k : A -> Run St B) :
  (forall a, post P (k a)) -> post P (bind m k).
Proof.
  intros Hk. apply (post_bind (fun _ => True)); [now intros ? ? ? ?|].
  intros a _. apply Hk.
Qed.

Lemma post_forM {St A} (I : A -> Prop) n (body : A -> Run St A) acc :
  I acc -> (forall a, I a -> post I (body a)) -> post I (forM n body acc).
Proof.
  intros Hacc Hb. revert acc Hacc.
  induction n as [|n IH]; intros acc Hacc; cbn [forM].
  - now apply post_ret.
  - apply (post_bind I); [now apply Hb | exact IH].
Qed.

Lemma post_panicIf {St} (err : option error) :
  post (St := St) (fun _ => err = None) (panicIf err).
Proof. destruct err; [apply post_panic | now apply post_ret]. Qed.

Lemma leUint_bound bs : 0 <= leUint bs < 2 ^ (8 * Z.of_nat (length bs)).
Proof.
  induction bs as [|b bs IH]; [simpl; lia|].
  cbn [leUint length]. pose proof (byteVal_range b) as Hb.
  replace (8 * Z.of_nat (S (length bs))) with (8 + 8 * Z.of_nat (length bs))
    by lia.
  rewrite Z.pow_add_r by lia. change (2 ^ 8) with 256. nia.
Qed.

Lemma decodeElem_inRange t bs :
  (length bs <= elemSize t)%nat -> inRange t (decodeElem t bs).
Proof.
  intros Hl. pose proof (leUint_bound bs) as Hb.
  assert (Hw : 0 <= leUint bs < 2 ^ (8 * Z.of_nat (elemSize t))).
  { split; [lia|]. eapply Z.lt_le_trans; [apply Hb|].
    apply Z.pow_le_mono_r; lia. }
  clear Hb Hl.
  destruct (elemType_eq_dec t Float32) as [->|Hf];
    [exact (viaFloat64_range _ Hw)|].
  unfold inRange, decodeElem. revert Hw.
  generalize (leUint bs) as u. intros u.
  destruct t; try congruence; clear Hf; cbn [elemSize signed andb];
    match goal with
    | |- context [2 ^ (?w - 1)] =>
        let a := eval vm_compute in (2 ^ (w - 1)) in
        let b := eval vm_compute in (2 ^ w) in
        change (2 ^ (w - 1)) with a; change (2 ^ w) with b
    | |- context [2 ^ ?w] =>
        let b := eval vm_compute in (2 ^ w) in change (2 ^ w) with b
    end;
    intros Hu; try exact Hu;
    match goal with
    | |- context [?a <=? u] =>
        destruct (a <=? u) eqn:E;
        [apply Z.leb_le in E | apply Z.leb_gt in E]; lia
    end.
Qed.

Lemma chunks_short k count : forall l,
  Forall (fun c => (length c <= k)%nat) (chunks k count l).
Proof.
  induction count as [|count IH]; intros l; cbn [chunks]; constructor.
  - rewrite length_firstn. lia.
  - apply IH.
Qed.

Lemma length_chunks k count : forall l, length (chunks k count l) = count.
Proof.
  induction count as [|count IH]; intros l; cbn [chunks length];
    [|rewrite IH]; reflexivity.
Qed.

(** What [binary.Read] hands back without an error: [n] elements, each in
    the range of its type. *)
Lemma post_binaryRead t n :
  post (fun '(v, err) => err = None -> Forall (inRange t) v /\ length v = n)
       (binaryRead t n).
Proof.
  unfold binaryRead. apply post_bind_any. intros [buf [e|]].
  - apply post_ret. discriminate.
  - apply post_ret. intros _. split.
    + apply Forall_map. eapply Forall_impl; [apply chunks_short|].
      intros c Hc. now apply decodeElem_inRange.
    + now rewrite length_map, length_chunks.
Qed.

Lemma decodable_readValue fuel atoms : post decodable (readValue fuel atoms).
Proof.
  induction fuel as [|fuel IH]; cbn [readValue];
    [intros s a s' E; discriminate|].
  apply post_bind_any. intros tag.
  destruct (Byte.eqb tag tagNull); [apply post_ret; constructor|].
  destruct (Byte.eqb tag tagUndefined); [apply post_ret; constructor|].
  destruct (Byte.eqb tag tagFalse); [apply post_ret; constructor|].
  destruct (Byte.eqb tag tagTrue); [apply post_ret; constructor|].
  destruct (Byte.eqb tag tagInt32).
  { apply post_bind_any. intros [v [e|]]; [apply post_panic|].
    destruct ((v <? MinInt32) || (MaxInt32 <? v)) eqn:E; [apply post_panic|].
    apply post_ret. constructor. apply orb_false_elim in E.
    destruct E as [E1 E2]. apply Z.ltb_ge in E1, E2. lia. }
  destruct (Byte.eqb tag tagFloat64).
  { eapply post_bind; [apply (post_binaryRead Float64 1)|].
    intros [v err] Hv. eapply post_bind; [apply post_panicIf|].
    intros _ ->. apply post_ret. constructor.
    destruct (Hv eq_refl) as [Hr _]. destruct Hr as [|z l Hz _]; [|exact Hz].
    cbn. change (2 ^ 64) with 18446744073709551616. lia. }
  destruct (Byte.eqb tag tagString).
  { apply post_bind_any. intros s. apply post_ret. constructor. }
  destruct (Byte.eqb tag tagObject).
  { apply post_bind_any. intros n.
    eapply post_bind
      with (Q := fun m : gmap string value =>
                   forall k v, m !! k = Some v -> decodable v).
    - apply post_forM.
      + intros k v Hk. rewrite lookup_empty in Hk. discriminate.
      + intros m Hm. apply post_bind_any. intros atom.
        eapply post_bind; [exact IH|]. intros x Hx. apply post_ret.
        intros k v Hk. apply lookup_insert_Some in Hk.
        destruct Hk as [[_ <-]|[_ Hk]]; [exact Hx | exact (Hm _ _ Hk)].
    - intros m Hm. apply post_ret. now constructor. }
  destruct (Byte.eqb tag tagArray).
  { apply post_bind_any. intros n.
    eapply post_bind with (Q := Forall decodable).
    - apply post_forM; [constructor|].
      intros l Hl. eapply post_bind; [exact IH|]. intros x Hx.
      apply post_ret. apply Forall_app. split; [exact Hl|].
      now constructor.
    - intros l Hl. apply post_ret. now constructor. }
  destruct (Byte.eqb tag tagArrayBuffer).
  { apply post_bind_any. intros n. apply post_bind_any. intros b.
    apply post_ret. constructor. apply Forall_map, Forall_forall.
    intros x _. exact (byteVal_range x). }
  destruct (Byte.eqb tag tagTypedArray); [|apply post_panic].
  apply post_bind_any. intros kind. apply post_bind_any. intros n.
  apply post_bind_any. intros off. apply post_bind_any. intros tag'.
  destruct (negb (Byte.eqb tagArrayBuffer tag')); [apply post_panic|].
  apply post_bind_any. intros n'.
  destruct (negb (n =? n')); [apply post_panic|].
  destruct (typedArrayElem kind) as [t|]; [|apply post_panic].
  eapply post_bind; [apply (post_binaryRead t (Z.to_nat n))|].
  intros [v err] Hv. eapply post_bind; [apply post_panicIf|].
  intros _ ->. apply post_ret. constructor. exact (proj1 (Hv eq_refl)).
Qed.

(** X13.  Whatever the input, the value that [ReadValue] returns is one
    of the decoder's variants (nil, [Undefined], a boolean, a string, a
    map, an array, a numeric slice) all the way down: every [int32] is
    within its range, every [float64] is a 64-bit pattern, and every
    element of a numeric slice is within the range of its type. *)
Theorem ReadValue_decodable (r r' : Reader) (v : value) (err : option error) :
  ReadValue r = (Returns v err, r') -> decodable v.
Proof.
  unfold ReadValue.
  destruct ((let* atoms := readHeader in
             readValue (S (length (unread r))) atoms) r) as [o r1] eqn:E.
  destruct o as [x|[e|m]|]; cbn [recover]; inversion 1; subst;
    try constructor.
  revert E. apply (post_bind_any decodable). intros atoms.
  apply decodable_readValue.
Qed.

Lemma ReadValue_decodable_witness :
  decodable (VSlice Int16 [-214; -32768]).
Proof.
  apply (ReadValue_decodable
           (NewReader (bytesOf [12; 0; 14; 3; 2; 0; 15; 2; 42; 255; 0; 128]))
           (NewReader []) (VSlice Int16 [-214; -32768]) None).
  vm_compute. reflexivity.
Defined.

Lemma forM_append_length {St A} n (body : Run St A) :
  forall acc,
    post (fun l => length l = (length acc + n)%nat)
         (forM n (fun v => let* x := body in ret (v ++ [x])) acc).
Proof.
  induction n as [|n IH]; intros acc; cbn [forM].
  - apply post_ret. lia.
  - eapply post_bind
      with (Q := fun l => length l = S (length acc)).
    + apply post_bind_any. intros x. apply post_ret.
      rewrite length_app. simpl. lia.
    + intros l Hl s a s' E. pose proof (IH l s a s' E). simpl in *. lia.
Qed.

(** X14.  The counts on the wire are honoured.  An array that decodes has
    as many elements as its count says, a typed array as many as its two
    counts say, and the atom table of a header that decodes has as many
    atoms as the header's count says. *)
Theorem declared_counts_are_honoured (fuel : nat) (atoms : list string) :
  (forall s sh n r1 v r',
     readUint32 (mkReader s sh) = (Ret n, r1) ->
     readValue (S fuel) atoms (mkReader (tagArray :: s) sh) = (Ret v, r') ->
     exists l, v = VArray l /\ len l = n)
  /\ (forall kind s sh n r1 v r',
        readUint32 (mkReader s sh) = (Ret n, r1) ->
        readValue (S fuel) atoms (mkReader (tagTypedArray :: kind :: s) sh)
        = (Ret v, r') ->
        exists t l, typedArrayElem kind = Some t /\ v = VSlice t l /\ len l = n)
  /\ (forall s sh n r1 table r',
        readUint32 (mkReader s sh) = (Ret n, r1) ->
        readHeader (mkReader (bcVersion :: s) sh) = (Ret table, r') ->
        len table = n).
Proof.
  split; [|split].
  - intros s sh n r1 v r' Hn E. pose proof (readUint32_bounds _ _ _ Hn) as Hb.
    cbn [readValue] in E. unfold bind at 1 in E. rewrite readByte_cons in E.
    revert E. eval_tags. unfold bind at 1. rewrite Hn. unfold bind at 1.
    destruct (forM (Z.to_nat n) _ [] r1) as [[l|p|] r2] eqn:El;
      try discriminate.
    unfold ret. intros E. injection E as <- <-.
    exists l. split; [reflexivity|].
    pose proof (forM_append_length (Z.to_nat n) (readValue fuel atoms)
                  [] r1 l r2 El) as Hl.
    unfold len. simpl in Hl. lia.
  - intros kind s sh n r1 v r' Hn E.
    pose proof (readUint32_bounds _ _ _ Hn) as Hb.
    cbn [readValue] in E. unfold bind at 1 in E. rewrite readByte_cons in E.
    revert E. eval_tags. unfold bind at 1. rewrite readByte_cons.
    unfold bind at 1. rewrite Hn.
    unfold bind at 1. destruct (readUint32 r1) as [[off|p|] r2]; try discriminate.
    unfold bind at 1. destruct (readByte r2) as [[tag'|p|] r3]; try discriminate.
    destruct (negb (Byte.eqb tagArrayBuffer tag')); [discriminate|].
    unfold bind at 1. destruct (readUint32 r3) as [[n'|p|] r4]; try discriminate.
    destruct (negb (n =? n')); [discriminate|].
    destruct (typedArrayElem kind) as [t|]; [|discriminate].
    unfold bind at 1.
    destruct (binaryRead t (Z.to_nat n) r4) as [[[l [e|]]|p|] r5] eqn:Eb;
      try discriminate.
    cbn. intros E. injection E as <- <-. exists t, l. split; [reflexivity|].
    split; [reflexivity|].
    destruct (post_binaryRead t (Z.to_nat n) _ _ _ Eb eq_refl) as [_ Hl].
    unfold len. lia.
  - intros s sh n r1 table r' Hn E.
    pose proof (readUint32_bounds _ _ _ Hn) as Hb.
    unfold readHeader in E. unfold bind at 1 in E.
    rewrite readByte_cons in E. revert E. eval_tags.
    unfold bind at 1. rewrite Hn. intros E.
    pose proof (forM_append_length (Z.to_nat n) readString [] r1 table r' E)
      as Hl.
    unfold len. simpl in Hl. lia.
Qed.

Lemma declared_counts_are_honoured_witness :
  (exists l, VArray [VNil; VBool true] = VArray l /\ len l = 2)
  /\ len ["k"%string] = 1.
Proof.
  split.
  - apply (proj1 (declared_counts_are_honoured 1 [])
             (bytesOf [2; 1; 4]) false 2 (NewReader (bytesOf [1; 4]))
             (VArray [VNil; VBool true]) (NewReader [])); reflexivity.
  - apply (proj2 (proj2 (declared_counts_are_honoured 0 []))
             (bytesOf [1; 2; 107]) false 1 (NewReader (bytesOf [2; 107]))
             ["k"%string] (NewReader [])); reflexivity.
Defined.

(** ** The binder, on whole objects *)

(** X15.  [ReadObject] takes an object and nothing else: on a stream
    whose value has another tag it fails with the object-expected error,
    which names the tag; it reads nothing after the tag and does not touch
    the record. *)
Theorem ReadObject_expects_object (r r1 r2 : Reader) (v : record)
    (atoms : list string) (tag : byte) :
  readHeader r = (Ret atoms, r1) ->
  readByte r1 = (Ret tag, r2) ->
  tag <> tagObject ->
  ReadObject r v
  = (Returns tt (Some (Errorf "ReadObject" (ObjectExpected (tagName tag)))),
     r2, v).
Proof.
  intros Hh Ht Hne. unfold ReadObject, bind, onReader. rewrite Hh, Ht.
  now rewrite (Byte_eqb_neq _ _ Hne).
Qed.

Lemma ReadObject_expects_object_witness :
  ReadObject (NewReader (bytesOf [12; 0; 9; 1; 1])) [mkField "k" TInt (VInt 42)]
  = (Returns tt (Some (Errorf "ReadObject" (ObjectExpected "array"))),
     NewReader (bytesOf [1; 1]), [mkField "k" TInt (VInt 42)]).
Proof.
  apply (ReadObject_expects_object
           (NewReader (bytesOf [12; 0; 9; 1; 1]))
           (NewReader (bytesOf [9; 1; 1])) (NewReader (bytesOf [1; 1]))
           [mkField "k" TInt (VInt 42)] [] tagArray);
    first [reflexivity | discriminate].
Defined.

Lemma sameShape_refl v : sameShape v v.
Proof. induction v as [|f v IH]; constructor; [now split | exact IH]. Qed.

Lemma sameShape_trans v1 v2 v3 :
  sameShape v1 v2 -> sameShape v2 v3 -> sameShape v1 v3.
Proof.
  unfold sameShape. intros H12. revert v3.
  induction H12 as [|f g v1 v2 [Hn Ht] _ IH]; intros v3 H23;
    inversion H23 as [|g' h v2' v3' [Hn' Ht'] H23']; subst; constructor.
  - split; congruence.
  - now apply IH.
Qed.

Lemma sameShape_insert v : forall i f x,
  v !! i = Some f -> sameShape v (<[i := setFieldValue x f]> v).
Proof.
  induction v as [|g v IH]; intros i f x Hi; [discriminate|].
  destruct i as [|i]; cbn in *.
  - injection Hi as ->. constructor; [now split | apply sameShape_refl].
  - constructor; [now split | now apply IH].
Qed.

Lemma fieldIndex_Some name fs : forall i0 i,
  fieldIndex name fs i0 = Some i ->
  exists j f, i = (i0 + j)%nat /\ fs !! j = Some f /\ fieldName f = name
              /\ forall j' g, (j' < j)%nat -> fs !! j' = Some g ->
                              fieldName g <> name.
Proof.
  induction fs as [|g fs IH]; intros i0 i E; [discriminate|].
  cbn [fieldIndex] in E. destruct (String.eqb (fieldName g) name) eqn:En.
  - injection E as <-. exists O, g. apply String.eqb_eq in En.
    repeat split; [lia | exact En | intros; lia].
  - destruct (IH _ _ E) as (j & f & -> & Hj & Hn & Hfirst).
    exists (S j), f. apply String.eqb_neq in En.
    repeat split; [lia | exact Hj | exact Hn |].
    intros [|j'] h Hlt Hh; [injection Hh as <-; exact En|].
    apply (Hfirst j' h); [lia | exact Hh].
Qed.

Lemma FieldByName_Some rec name i :
  FieldByName rec name = Some i -> exists f, firstNamed rec name i f.
Proof.
  unfold FieldByName. destruct (String.eqb name EmptyString) eqn:E0;
    [discriminate|].
  intros E. destruct (fieldIndex_Some _ _ _ _ E) as (j & f & -> & Hj & Hn & Hf).
  exists f. apply String.eqb_neq in E0. now repeat split.
Qed.

Lemma FieldByName_None rec name i f :
  FieldByName rec name = None -> firstNamed rec name i f -> False.
Proof.
  intros E Hf. rewrite (FieldByName_first _ _ _ _ Hf) in E. discriminate.
Qed.

(** What a call of [setField] can have done. *)
Lemma setField_cases name x rec o rec' :
  setField name x rec = (o, rec') ->
  (o = Ret false /\ rec' = rec /\ FieldByName rec name = None)
  \/ (exists i f, firstNamed rec name i f
        /\ ((o = Ret true
             /\ rec' = <[i := setFieldValue (bound (fieldType f) x) f]> rec)
            \/ ((exists p, o = Panic p) /\ rec' = rec))).
Proof.
  unfold setField. destruct (FieldByName rec name) as [i|] eqn:Ei.
  - destruct (FieldByName_Some _ _ _ Ei) as [f Hf]. pose proof Hf as Hf'.
    destruct Hf' as (_ & Hl & _ & _). rewrite Hl. unfold bound.
    intros E. right. exists i, f. split; [exact Hf|].
    destruct (typeOf x) as [t|].
    + destruct (assignable t (fieldType f)); inversion E; subst;
        [left; now split | right; split; [eauto | reflexivity]].
    + inversion E; subst. left. now split.
  - inversion 1; subst. left. now repeat split.
Qed.

Lemma steps_sameShape_forM {A} n (body : A -> Run (Reader * record) A) :
  (forall a, steps (fun s s' => sameShape (snd s) (snd s')) (body a)) ->
  forall acc, steps (fun s s' => sameShape (snd s) (snd s')) (forM n body acc).
Proof.
  intros Hb. induction n as [|n IH]; intros acc s o s' E; cbn [forM] in E.
  - inversion E; subst. apply sameShape_refl.
  - unfold bind in E. destruct (body acc s) as [[a|p|] s1] eqn:E1.
    + eapply sameShape_trans; [exact (Hb _ _ _ _ E1) | exact (IH _ _ _ _ E)].
    + inversion E; subst. exact (Hb _ _ _ _ E1).
    + inversion E; subst. exact (Hb _ _ _ _ E1).
Qed.

Lemma steps_sameShape_bindProperty fuel atoms u :
  steps (fun s s' => sameShape (snd s) (snd s')) (bindProperty fuel atoms u).
Proof.
  intros [r v] o [r' v'] E. cbn [snd]. unfold bindProperty, bind in E.
  destruct (onReader (readAtom atoms) (r, v)) as [[name|q|] [r1 v1]] eqn:E1;
    pose proof (onReader_record _ _ _ _ _ _ E1) as ->;
    [|inversion E; subst; apply sameShape_refl..].
  destruct (onReader (readValue fuel atoms) (r1, v)) as [[x|q|] [r2 v2]] eqn:E2;
    pose proof (onReader_record _ _ _ _ _ _ E2) as ->;
    [|inversion E; subst; apply sameShape_refl..].
  unfold onRecord in E.
  destruct (setField name x v) as [o3 v3] eqn:E3.
  assert (v' = v3) as -> by (destruct o3; now inversion E).
  destruct (setField_cases _ _ _ _ _ E3)
    as [(_ & -> & _)|(i & f & Hf & [[_ ->]|[_ ->]])];
    try apply sameShape_refl.
  apply sameShape_insert. exact (proj1 (proj2 Hf)).
Qed.

(** X16.  Whatever the input and whether it fails or not, [ReadObject]
    leaves a record with the fields it was given: the same names and
    types, in the same order.  Only values change. *)
Theorem ReadObject_keeps_shape (r : Reader) (v : record) :
  sameShape v (snd (ReadObject r v)).
Proof.
  unfold ReadObject.
  match goal with
  | |- context [let '(_, _) := ?m (r, v) in _] =>
      assert (Hs : steps (fun s s' => sameShape (snd s) (snd s')) m);
      [|destruct (m (r, v)) as [o [r' v']] eqn:E]
  end.
  2:{ exact (Hs _ _ _ E). }
  intros [r0 v0] o [r' v'] E. cbn [snd]. unfold bind at 1 in E.
  destruct (onReader readHeader (r0, v0)) as [[atoms|q|] [r1 v1]] eqn:E1;
    pose proof (onReader_record _ _ _ _ _ _ E1) as ->;
    [|inversion E; subst; apply sameShape_refl..].
  unfold bind at 1 in E.
  destruct (onReader readByte (r1, v0)) as [[tag|q|] [r2 v2]] eqn:E2;
    pose proof (onReader_record _ _ _ _ _ _ E2) as ->;
    [|inversion E; subst; apply sameShape_refl..].
  destruct (negb (Byte.eqb tag tagObject));
    [inversion E; subst; apply sameShape_refl|].
  unfold bind at 1 in E.
  destruct (onReader readUint32 (r2, v0)) as [[count|q|] [r3 v3]] eqn:E3;
    pose proof (onReader_record _ _ _ _ _ _ E3) as ->;
    [|inversion E; subst; apply sameShape_refl..].
  exact (steps_sameShape_forM _ _ (steps_sameShape_bindProperty _ atoms)
           _ _ _ _ E).
Qed.

Lemma readValue_fuel_irrelevant f1 f2 atoms r :
  (avail r < f1)%nat -> (avail r < f2)%nat ->
  readValue f1 atoms r = readValue f2 atoms r.
Proof.
  intros H1 H2. set (L := avail r) in *.
  destruct (readValue (S L) atoms r) as [o r'] eqn:E.
  destruct (readValue_fuel_enough (S L) atoms L (Nat.lt_succ_diag_r L)
              r o r' E (Nat.le_refl L)) as [Ho _].
  assert (Hl1 : (S L <= f1)%nat) by lia.
  assert (Hl2 : (S L <= f2)%nat) by lia.
  rewrite (readValue_fuel_mono (S L) f1 atoms Hl1 r o r' E Ho).
  now rewrite (readValue_fuel_mono (S L) f2 atoms Hl2 r o r' E Ho).
Qed.

Lemma firstNamed_unique rec name i f j g :
  firstNamed rec name i f -> firstNamed rec name j g -> i = j /\ f = g.
Proof.
  intros (_ & Hi & Hn & Hfi) (_ & Hj & Hm & Hfj).
  assert (i = j) as ->.
  { destruct (lt_eq_lt_dec i j) as [[Hlt|Heq]|Hgt]; [|exact Heq|].
    - exfalso. exact (Hfj i f Hlt Hi Hn).
    - exfalso. exact (Hfi j g Hgt Hj Hm). }
  split; [reflexivity | congruence].
Qed.

Lemma firstNamed_sameShape v0 v name i f :
  sameShape v0 v -> firstNamed v0 name i f ->
  exists f', firstNamed v name i f' /\ fieldType f' = fieldType f.
Proof.
  intros Hs (Hne & Hi & Hn & Hfirst).
  destruct (Forall2_lookup_l _ _ _ _ _ Hs Hi) as (f' & Hi' & Hn' & Ht').
  exists f'. split; [|exact Ht'].
  repeat split; [exact Hne | exact Hi' | congruence |].
  intros j g' Hj Hg'.
  destruct (Forall2_lookup_r _ _ _ _ _ Hs Hg') as (g & Hg & Hgn & _).
  rewrite Hgn. exact (Hfirst j g Hj Hg).
Qed.

Lemma bindsTo_step v0 m v name x b v1 :
  bindsTo v0 m v -> setField name x v = (Ret b, v1) ->
  bindsTo v0 (<[name := x]> m) v1.
Proof.
  intros [Hs Hb] E.
  destruct (setField_cases _ _ _ _ _ E)
    as [(_ & -> & Hnone)|(j & g & Hg & [[_ ->]|[[p Hp] _]])];
    [| |discriminate].
  - split; [exact Hs|]. intros i f Hf.
    destruct (Hb i f Hf) as (f' & Hi' & Hv). exists f'. split; [exact Hi'|].
    rewrite lookup_insert_ne; [exact Hv|]. intros Heq.
    destruct (firstNamed_sameShape _ _ _ _ _ Hs Hf) as (f'' & Hf'' & _).
    rewrite <- Heq in Hf''.
    exact (FieldByName_None _ _ _ _ Hnone Hf'').
  - split.
    + eapply sameShape_trans; [exact Hs|].
      apply sameShape_insert. exact (proj1 (proj2 Hg)).
    + intros i f Hf. destruct (Hb i f Hf) as (f' & Hi' & Hv).
      destruct (firstNamed_sameShape _ _ _ _ _ Hs Hf) as (f'' & Hf'' & Ht).
      assert (f'' = f') as -> by (destruct Hf'' as (_ & H & _); congruence).
      destruct (string_dec name (fieldName f)) as [Heq|Hne];
        [rewrite Heq in *|].
      * destruct (firstNamed_unique _ _ _ _ _ _ Hg Hf'') as [-> ->].
        eexists. split.
        { apply list_lookup_insert_eq. now apply lookup_lt_Some in Hi'. }
        cbn [setFieldValue fieldValue]. rewrite lookup_insert_eq.
        now rewrite Ht.
      * exists f'. split.
        { unfold record in *.
          rewrite list_lookup_insert_ne; [exact Hi'|]. intros Hji.
          rewrite Hji in Hg.
          destruct Hg as (_ & Hj & Hjn & _). destruct Hf'' as (_ & Hi & Hin & _).
          congruence. }
        now rewrite lookup_insert_ne.
Qed.

Lemma bindProperty_Ret fuel atoms r v r' v' :
  bindProperty fuel atoms tt (r, v) = (Ret tt, (r', v')) ->
  exists name x r1 b,
    readAtom atoms r = (Ret name, r1)
    /\ readValue fuel atoms r1 = (Ret x, r')
    /\ setField name x v = (Ret b, v').
Proof.
  unfold bindProperty, bind, onReader, onRecord.
  destruct (readAtom atoms r) as [[name|q|] r1] eqn:E1; try discriminate.
  destruct (readValue fuel atoms r1) as [[x|q|] r2] eqn:E2; try discriminate.
  destruct (setField name x v) as [[b|q|] v1] eqn:E3; try discriminate.
  unfold ret. intros E. injection E as <- <-. now exists name, x, r1, b.
Qed.

(** The loop of [ReadObject] and the loop of the object case of
    [readValue] read the same properties. *)
Lemma bind_loop_simulation fuel fuel' atoms v0 k : forall r v m r' v',
  (avail r < fuel)%nat -> (avail r < fuel')%nat ->
  bindsTo v0 m v ->
  forM k (bindProperty fuel atoms) tt (r, v) = (Ret tt, (r', v')) ->
  exists m',
    forM k (fun m : gmap string value =>
              let* atom := readAtom atoms in
              let* x := readValue fuel' atoms in
              ret (<[atom := x]> m)) m r
    = (Ret m', r')
    /\ bindsTo v0 m' v'.
Proof.
  induction k as [|k IH]; intros r v m r' v' Hf Hf' Hb E; cbn [forM] in *.
  - inversion E; subst. now exists m.
  - unfold bind at 1 in E.
    destruct (bindProperty fuel atoms tt (r, v)) as [[[]|q|] [r2 v1]] eqn:E1;
      try discriminate.
    destruct (bindProperty_Ret _ _ _ _ _ _ E1)
      as (name & x & r1 & b & Ha & Hx & Hset).
    destruct (ok_readAtom atoms (avail r) r _ r1 Ha (Nat.le_refl _))
      as [_ Hr1].
    assert (Hf1 : (avail r1 < fuel)%nat) by lia.
    destruct (readValue_fuel_enough fuel atoms (avail r1) Hf1
                r1 _ r2 Hx (Nat.le_refl _)) as [_ Hr2].
    assert (Hf2 : (avail r2 < fuel)%nat) by lia.
    assert (Hf2' : (avail r2 < fuel')%nat) by lia.
    destruct (IH r2 v1 (<[name := x]> m) r' v' Hf2 Hf2'
                (bindsTo_step _ _ _ _ _ _ _ Hb Hset) E) as (m' & Hm' & Hb').
    exists m'. split; [|exact Hb'].
    unfold bind at 1. unfold bind at 1. rewrite Ha. unfold bind at 1.
    rewrite (readValue_fuel_irrelevant fuel' fuel atoms r1) by lia.
    rewrite Hx. exact Hm'.
Qed.

(** X17.  When [ReadObject] succeeds, [ReadValue] on the same stream
    succeeds too, returns an object and stops at the same place; and the
    record is the caller's with that object bound to it: a field named by
    a key holds the value under the key (the zero value of its type for
    null), a field named by no key holds what it held. *)
Theorem ReadObject_binds_the_object (r r' : Reader) (v v' : record) :
  ReadObject r v = (Returns tt None, r', v') ->
  exists m,
    ReadValue r = (Returns (VMap m) None, r') /\ bindsTo v m v'.
Proof.
  intros E. unfold ReadObject in E. set (L := length (unread r)) in *.
  unfold bind at 1, onReader at 1 in E.
  destruct (readHeader r) as [[atoms|q|] r1] eqn:E1;
    [|destruct q; discriminate|discriminate].
  destruct (ok_readHeader (avail r) r _ r1 E1 (Nat.le_refl _)) as [_ Hr1].
  unfold bind at 1, onReader at 1 in E.
  destruct r1 as [[|tag l] sh].
  { rewrite readByte_nil in E. discriminate. }
  rewrite readByte_cons in E.
  destruct (Byte.eqb tag tagObject) eqn:Et; [|discriminate].
  apply Byte.byte_dec_bl in Et. subst tag. cbn [negb] in E.
  unfold bind at 1, onReader at 1 in E.
  destruct (readUint32 (mkReader l sh)) as [[count|q|] r3] eqn:E3;
    [|destruct q; discriminate|discriminate].
  destruct (ok_readUint32 (avail (mkReader l sh)) _ _ r3 E3 (Nat.le_refl _))
    as [_ Hr3].
  destruct (forM (Z.to_nat count) (bindProperty (S L) atoms) tt (r3, v))
    as [[[]|q|] [r4 v4]] eqn:E4;
    [|destruct q; discriminate|discriminate].
  cbn [recover] in E. injection E as <- <-.
  assert (Hav : (avail r3 < L)%nat).
  { unfold avail, avail_reader in *. cbn [unread length] in *. lia. }
  assert (Hav' : (avail r3 < S L)%nat) by lia.
  destruct (bind_loop_simulation (S L) L atoms v (Z.to_nat count)
              r3 v ∅ r4 v4 Hav' Hav) as (m & Hm & Hb); [|exact E4|].
  { split; [apply sameShape_refl|]. intros i f Hf.
    destruct Hf as (_ & Hi & _). exists f. split; [exact Hi|].
    now rewrite lookup_empty. }
  exists m. split; [|exact Hb].
  unfold ReadValue. fold L. unfold bind at 1. rewrite E1.
  cbn [readValue]. unfold bind at 1. rewrite readByte_cons. eval_tags.
  unfold bind at 1. rewrite E3. unfold bind at 1. rewrite Hm. reflexivity.
Qed.

Lemma ReadObject_binds_the_object_witness :
  exists m,
    ReadValue (NewReader (bytesOf [12; 1; 2; 107; 8; 1; 2; 1]))
    = (Returns (VMap m) None, NewReader [])
    /\ bindsTo [mkField "k" TInt (VInt 42)] m [mkField "k" TInt (VInt 0)].
Proof.
  apply (ReadObject_binds_the_object
           (NewReader (bytesOf [12; 1; 2; 107; 8; 1; 2; 1])) (NewReader [])
           [mkField "k" TInt (VInt 42)] [mkField "k" TInt (VInt 0)]).
  vm_compute. reflexivity.
Defined.

(** ** The encoder's limits *)

(** X18.  A value that the type switch of [WriteValue] has no case for,
    among them every [int32], [float64], string, map and array that
    [ReadValue] returns, makes it fail with the unsupported-type error
    (reported under the name of [ReadObject]); by then the header, and
    only the header, has been written. *)
Theorem WriteValue_rejects (w : list byte) (v : value) :
  encodable v = false ->
  WriteValue w v
  = (Returns tt (Some (Errorf "ReadObject" (UnsupportedValue v))),
     w ++ [bcVersion; x00]).
Proof.
  intros Hv. unfold WriteValue, writeValue.
  unfold bind at 1, write at 1. unfold bind at 1.
  change (writeUvarint (len [])) with (write [x00]). unfold write at 1.
  rewrite <- app_assoc. cbn [app].
  destruct v as [| |b|z|z|z|s|m|l|t l|bs|bs|t x|t]; try discriminate;
    try reflexivity.
  destruct t; try discriminate; reflexivity.
Qed.

Lemma WriteValue_rejects_witness :
  WriteValue [] (VInt32 42)
  = (Returns tt (Some (Errorf "ReadObject" (UnsupportedValue (VInt32 42)))),
     [bcVersion; x00])
  /\ WriteValue [] (VString "ok")
     = (Returns tt (Some (Errorf "ReadObject" (UnsupportedValue (VString "ok")))),
        [bcVersion; x00]).
Proof.
  split.
  - exact (WriteValue_rejects [] (VInt32 42) eq_refl).
  - exact (WriteValue_rejects [] (VString "ok") eq_refl).
Defined.

Lemma map_byteVal_byteOf l :
  Forall (inRange Uint8) l -> map byteVal (map byteOf l) = l.
Proof.
  induction 1 as [|z l Hz _ IH]; [reflexivity|].
  cbn [map]. rewrite byteVal_byteOf, IH.
  unfold inRange in Hz. cbn in Hz. now rewrite Z.mod_small by lia.
Qed.

(** What [writeTypedArray] appends under any tag that selects the element
    type, and that [readValue] reads it back. *)
Lemma writeTypedArray_readValue_tag t l tag :
  typedArrayElem tag = Some t ->
  len l <= MaxUint32 -> Forall (inRange t) l ->
  exists out,
    (forall w, writeTypedArray (len l) t l tag w = (Ret tt, w ++ out))
    /\ (forall fuel atoms rest sh,
          readValue (S fuel) atoms (mkReader (out ++ rest) sh)
          = (Ret (VSlice t (map (stored t) l)), mkReader rest sh)).
Proof.
  intros Htag Hn Hl.
  destruct (readUint32_writeUvarint (len l)) as (bs & Hw & Hr);
    [unfold len in *; lia|].
  exists ([tagTypedArray; tag] ++ bs ++ [x00; tagArrayBuffer] ++ bs
          ++ concat (map (encodeElem t) l)).
  split.
  - intros w. unfold writeTypedArray, bind, binaryWrite.
    unfold write at 1. rewrite Hw.
    change (writeUvarint 0) with (write [x00]). unfold write at 1.
    unfold write at 1. rewrite Hw. unfold bind, write. cbn [panicIf]. unfold ret.
    f_equal. rewrite <- !app_assoc. reflexivity.
  - intros fuel atoms rest sh. cbn [readValue app].
    unfold bind at 1. rewrite readByte_cons. eval_tags.
    unfold bind at 1. rewrite readByte_cons.
    rewrite <- !app_assoc.
    unfold bind at 1. rewrite Hr. cbn [app].
    unfold bind at 1. rewrite readUint32_zero.
    unfold bind at 1. rewrite readByte_cons. eval_tags.
    rewrite <- !app_assoc. unfold bind at 1. rewrite Hr.
    rewrite Z.eqb_refl. cbn [negb]. rewrite Htag.
    unfold len. rewrite Nat2Z.id.
    unfold bind at 1. rewrite (binaryRead_binaryWrite t l rest sh Hl).
    reflexivity.
Qed.

(** X19.  An [ArrayBuffer] or a [Uint8ClampedArray] of at most
    [MaxUint32] bytes is written in full, and [ReadValue] returns its
    bytes, in order, as a plain byte slice. *)
Theorem byte_buffers_come_back_as_slices (Bytes : list Z) :
  len Bytes <= MaxUint32 -> Forall (inRange Uint8) Bytes ->
  (exists bs,
     WriteValue [] (VArrayBuffer Bytes) = (Returns tt None, bs)
     /\ ReadValue (NewReader bs)
        = (Returns (VSlice Uint8 Bytes) None, NewReader []))
  /\ (exists bs,
        WriteValue [] (VUint8ClampedArray Bytes) = (Returns tt None, bs)
        /\ ReadValue (NewReader bs)
           = (Returns (VSlice Uint8 Bytes) None, NewReader [])).
Proof.
  intros Hn Hb. split.
  - destruct (readUint32_writeUvarint (len Bytes)) as (bs & Hw & Hr);
      [unfold len in *; lia|].
    exists (bcVersion :: x00 :: tagArrayBuffer :: bs ++ map byteOf Bytes).
    split.
    + unfold WriteValue, writeValue, bind at 1, write at 1, bind at 1.
      change (writeUvarint (len [])) with (write [x00]). unfold write at 1.
      unfold bind at 1, write at 1. unfold bind at 1. rewrite Hw.
      unfold write. cbn [recover app]. reflexivity.
    + unfold ReadValue, NewReader, bind. rewrite readHeader_empty.
      cbn [unread length readValue]. unfold bind at 1.
      rewrite readByte_cons. eval_tags.
      unfold bind at 1. rewrite Hr. unfold bind at 1.
      rewrite <- (app_nil_r (map byteOf Bytes)).
      replace (len Bytes) with (len (map byteOf Bytes))
        by (unfold len; now rewrite length_map).
      rewrite readBytes_exact.
      unfold ret. cbn [recover]. now rewrite (map_byteVal_byteOf _ Hb).
  - destruct (writeTypedArray_readValue_tag Uint8 Bytes uint8ClampedArray
                eq_refl Hn Hb) as (out & Hw & Hr).
    exists (bcVersion :: x00 :: out). split.
    + unfold WriteValue, writeValue, bind at 1, write at 1, bind at 1.
      change (writeUvarint (len [])) with (write [x00]). unfold write at 1.
      rewrite Hw. reflexivity.
    + unfold ReadValue, NewReader, bind. rewrite readHeader_empty.
      cbn [unread length].
      rewrite <- (app_nil_r out) at 2. rewrite Hr.
      rewrite (map_stored_same Uint8 Bytes) by discriminate. reflexivity.
Qed.

Lemma byte_buffers_come_back_as_slices_witness :
  exists bs,
    WriteValue [] (VArrayBuffer [1; 2; 255]) = (Returns tt None, bs)
    /\ ReadValue (NewReader bs)
       = (Returns (VSlice Uint8 [1; 2; 255]) None, NewReader []).
Proof.
  apply (byte_buffers_come_back_as_slices [1; 2; 255]).
  - vm_compute. discriminate.
  - repeat constructor; vm_compute; discriminate.
Defined.

(** ** The reader only moves forward *)

Lemma reads_refl r : reads r r.
Proof. now exists []. Qed.

Lemma reads_trans r1 r2 r3 : reads r1 r2 -> reads r2 r3 -> reads r1 r3.
Proof.
  intros [c1 H1] [c2 H2]. exists (c1 ++ c2). now rewrite H1, H2, app_assoc.
Qed.

Lemma steps_ret {A} (a : A) : steps reads (ret a).
Proof. intros s o s' E. inversion E; subst. apply reads_refl. Qed.

Lemma steps_panic {A} p : steps reads (@panic Reader A p).
Proof. intros s o s' E. inversion E; subst. apply reads_refl. Qed.

Lemma steps_outOfFuel {A} : steps reads (@outOfFuel Reader A).
Proof. intros s o s' E. inversion E; subst. apply reads_refl. Qed.

Lemma steps_bind {A B} (m : Run Reader A) (k : A -> Run Reader B) :
  steps reads m -> (forall a, steps reads (k a)) -> steps reads (bind m k).
Proof.
  intros Hm Hk s o s' E. unfold bind in E.
  destruct (m s) as [[a|p|] s1] eqn:E1.
  - exact (reads_trans _ _ _ (Hm _ _ _ E1) (Hk a _ _ _ E)).
  - inversion E; subst. exact (Hm _ _ _ E1).
  - inversion E; subst. exact (Hm _ _ _ E1).
Qed.

Lemma steps_forM {A} n (body : A -> Run Reader A) acc :
  (forall a, steps reads (body a)) -> steps reads (forM n body acc).
Proof.
  intros Hb. revert acc. induction n as [|n IH]; intros acc; cbn [forM].
  - apply steps_ret.
  - apply steps_bind; [apply Hb | exact IH].
Qed.

Lemma steps_Read b : steps reads (Read b).
Proof.
  intros [l sh] o r' E. unfold Read in E. cbn [unread short] in E.
  destruct l as [|a l]; inversion E; subst; unfold reads; cbn [unread].
  - now exists [].
  - eexists. symmetry. apply firstn_skipn.
Qed.

(** One syntax-directed step of a [steps reads] proof. *)
Ltac reads_step :=
  lazymatch goal with
  | |- steps reads (bind _ _) => apply steps_bind; [|intros ?]
  | |- steps reads (ret _) => apply steps_ret
  | |- steps reads (panic _) => apply steps_panic
  | |- steps reads outOfFuel => apply steps_outOfFuel
  | |- steps reads (panicIf ?e) =>
      destruct e; [apply steps_panic | apply steps_ret]
  | |- steps reads (forM _ _ _) => apply steps_forM; intros ?
  | |- steps reads (if ?c then _ else _) => destruct c
  | |- steps reads (match ?x with (_, _) => _ end) => destruct x
  | |- steps reads (match ?x with Some _ => _ | None => _ end) => destruct x
  | |- steps reads (match ?x with EOF => _ | _ => _ end) => destruct x
  | |- steps reads (match ?x with O => _ | S _ => _ end) => destruct x
  end.

Lemma steps_readAtLeast fuel : forall buf n min err,
  steps reads (readAtLeast fuel buf n min err).
Proof.
  induction fuel as [|fuel IH]; intros buf n min err; cbn [readAtLeast];
    repeat reads_step; first [apply steps_Read | apply IH].
Qed.

Lemma steps_ReadFull buf : steps reads (ReadFull buf).
Proof.
  unfold ReadFull. repeat reads_step. apply steps_readAtLeast.
Qed.

Lemma steps_ReadByte : steps reads ReadByte.
Proof. unfold ReadByte. repeat reads_step. apply steps_Read. Qed.

Lemma steps_readByte : steps reads readByte.
Proof. unfold readByte. repeat reads_step. apply steps_ReadByte. Qed.

Lemma steps_readBytes n : steps reads (readBytes n).
Proof. unfold readBytes. repeat reads_step; apply steps_Read. Qed.

Lemma steps_readUvarintLoop todo : forall i x s,
  steps reads (readUvarintLoop todo i x s).
Proof.
  induction todo as [|todo IH]; intros i x s; cbn [readUvarintLoop];
    repeat reads_step; first [apply steps_ReadByte | apply IH].
Qed.

Lemma steps_ReadVarint : steps reads ReadVarint.
Proof.
  unfold ReadVarint, ReadUvarint. repeat reads_step.
  apply steps_readUvarintLoop.
Qed.

Lemma steps_readUint32 : steps reads readUint32.
Proof.
  unfold readUint32, ReadUvarint. repeat reads_step.
  apply steps_readUvarintLoop.
Qed.

Lemma steps_binaryRead t n : steps reads (binaryRead t n).
Proof. unfold binaryRead. repeat reads_step. apply steps_ReadFull. Qed.

Lemma steps_readString : steps reads readString.
Proof.
  unfold readString. repeat reads_step;
    first [apply steps_readUint32 | apply steps_binaryRead
          | apply steps_readBytes].
Qed.

Lemma steps_readHeader : steps reads readHeader.
Proof.
  unfold readHeader. repeat reads_step;
    first [apply steps_readByte | apply steps_readUint32
          | apply steps_readString].
Qed.

Lemma steps_readAtom atoms : steps reads (readAtom atoms).
Proof. unfold readAtom. repeat reads_step. apply steps_readUint32. Qed.

Lemma steps_readValue fuel atoms : steps reads (readValue fuel atoms).
Proof.
  induction fuel as [|fuel IH]; cbn [readValue]; [apply steps_outOfFuel|].
  repeat reads_step;
    first [ exact IH | apply steps_ReadVarint | apply steps_binaryRead
          | apply steps_readString | apply steps_readUint32
          | apply steps_readAtom | apply steps_readBytes
          | apply steps_readByte ].
Qed.

Lemma steps_onReader {A} (m : Run Reader A) :
  steps reads m -> steps (fun s s' => reads (fst s) (fst s')) (onReader m).
Proof.
  intros Hm [r v] o [r' v'] E. unfold onReader in E.
  destruct (m r) as [o1 r1] eqn:E1. inversion E; subst. exact (Hm _ _ _ E1).
Qed.

(** X20.  The decoders only move forward: what [ReadValue] or
    [ReadObject] leaves unread is an end piece of what it was given,
    whether the call fails or not. *)
Theorem decoders_read_a_prefix (r : Reader) (v : record) :
  reads r (snd (ReadValue r)) /\ reads r (snd (fst (ReadObject r v))).
Proof.
  split.
  - unfold ReadValue.
    match goal with
    | |- context [let '(_, _) := ?m r in _] =>
        assert (Hs : steps reads m);
        [|destruct (m r) as [o r'] eqn:E; exact (Hs _ _ _ E)]
    end.
    apply steps_bind; [apply steps_readHeader|]. intros atoms.
    apply steps_readValue.
  - unfold ReadObject. set (fuel := S (length (unread r))).
    match goal with
    | |- context [let '(_, _) := ?m (r, v) in _] =>
        assert (Hs : steps (fun s s' => reads (fst s) (fst s')) m);
        [|destruct (m (r, v)) as [o [r' v']] eqn:E; exact (Hs _ _ _ E)]
    end.
    assert (Hbind : forall A B (m : Run (Reader * record) A)
                      (k : A -> Run (Reader * record) B),
               steps (fun s s' => reads (fst s) (fst s')) m ->
               (forall a, steps (fun s s' => reads (fst s) (fst s')) (k a)) ->
               steps (fun s s' => reads (fst s) (fst s')) (bind m k)).
    { intros A B m k Hm Hk s o s' E. unfold bind in E.
      destruct (m s) as [[a|p|] s1] eqn:E1.
      - exact (reads_trans _ _ _ (Hm _ _ _ E1) (Hk a _ _ _ E)).
      - inversion E; subst. exact (Hm _ _ _ E1).
      - inversion E; subst. exact (Hm _ _ _ E1). }
    assert (Hret : forall A (a : A),
               steps (fun s s' : Reader * record => reads (fst s) (fst s'))
                     (ret a)).
    { intros A a s o s' E. inversion E; subst. apply reads_refl. }
    apply Hbind; [apply steps_onReader, steps_readHeader|]. intros atoms.
    apply Hbind; [apply steps_onReader, steps_readByte|]. intros tag.
    destruct (negb (Byte.eqb tag tagObject)).
    { intros s o s' E. inversion E; subst. apply reads_refl. }
    apply Hbind; [apply steps_onReader, steps_readUint32|]. intros count.
    generalize (Z.to_nat count) as n. intros n. generalize tt as u.
    induction n as [|n IH]; intros u; cbn [forM]; [apply Hret|].
    apply Hbind; [|exact IH]. unfold bindProperty.
    apply Hbind; [apply steps_onReader, steps_readAtom|]. intros name.
    apply Hbind; [apply steps_onReader, steps_readValue|]. intros x.
    apply Hbind; [|intros _; apply Hret].
    intros [r0 v0] o [r' v'] E. unfold onRecord in E.
    destruct (setField name x v0) as [o1 v1]. inversion E; subst.
    apply reads_refl.
Qed.
